(** * P4.py: BPSK and 16-QAM passband link, shallow embedding

    The Python functions of [P4.py] are embedded as Rocq functions.

    - NumPy float arrays are [list R]: floating-point numbers are idealised
      as exact reals, so [np.sin], [np.sqrt], [pow] are [sin], [sqrt],
      [Rpower], without rounding, overflow or NaN.  What is proved of
      sample values is therefore proved of the arithmetic the code
      performs, not of its rounding: in particular [sin] vanishes exactly
      at the multiples of pi, where [np.sin] returns a residue of the
      order of 1e-16.
    - The channel is embedded a second time, as [canal_ruidoso_float],
      with the range of the doubles in its scalar operations: the
      exceptions of [pow] and of the division, and the results that are
      not finite numbers.
    - Python exceptions are an explicit error monad [result].
    - Names that a function does not bind locally are resolved in an
      explicit module environment, as Python does at run time.
    - [np.random.normal] reads an explicit generator state.
    - Lengths, indices and the sample count [mpp] are natural numbers;
      the entries of integer arrays are in [Z]. *)

From Stdlib Require Import String Ascii DecimalString.
From Stdlib Require Import List NArith ZArith Reals Lra Lia Arith Bool.
Import ListNotations.

Open Scope R_scope.

(** ** Python exceptions and the error monad *)

Module Py.

Inductive exn : Type :=
| NameError (nombre : string)
| IndexError
| ValueError
| TypeError
| ZeroDivisionError
| OverflowError.

Inductive result (A : Type) : Type :=
| Return (a : A)
| Raise (e : exn).

Arguments Return {A} a.
Arguments Raise {A} e.

Definition bind {A B : Type} (m : result A) (k : A -> result B) : result B :=
  match m with
  | Return a => k a
  | Raise e => Raise e
  end.

(** [for x in it: body], threading the loop state and stopping at the
    first exception. *)
Fixpoint for_each {I S : Type} (it : list I) (body : I -> S -> result S)
  (s : S) : result S :=
  match it with
  | [] => Return s
  | x :: it' => bind (body x s) (for_each it' body)
  end.

(** Values a module-level name can be bound to. *)
Inductive valor : Type :=
| VEntero (n : Z)
| VArreglo (a : list R)
| VObjeto.

(** A namespace: the bindings of the module (globals). *)
Definition entorno : Type := list (string * valor).

Fixpoint buscar_opt (G : entorno) (nombre : string) : option valor :=
  match G with
  | [] => None
  | (n, v) :: G' => if String.eqb n nombre then Some v else buscar_opt G' nombre
  end.

(** Reading a name that is not local to the function. *)
Definition buscar (G : entorno) (nombre : string) : result valor :=
  match buscar_opt G nombre with
  | Some v => Return v
  | None => Raise (NameError nombre)
  end.

Fixpoint ligar (G : entorno) (nombre : string) (v : valor) : entorno :=
  match G with
  | [] => [(nombre, v)]
  | (n, w) :: G' =>
      if String.eqb n nombre then (n, v) :: G' else (n, w) :: ligar G' nombre v
  end.

(** [a / b] on Python numbers. *)
Definition div (a b : R) : result R :=
  if Req_dec_T b 0 then Raise ZeroDivisionError else Return (a / b).

(** [int(a / b)] on non-negative Python ints. *)
Definition int_div (a b : nat) : result nat :=
  match b with
  | O => Raise ZeroDivisionError
  | S _ => Return (Nat.div a b)
  end.

(** [l[i]] for [0 <= i]. *)
Definition getitem {A : Type} (l : list A) (i : nat) : result A :=
  match nth_error l i with
  | Some x => Return x
  | None => Raise IndexError
  end.

(** [range(0, n, paso)] *)
Fixpoint range_desde (i paso : nat) (cuenta : nat) : list nat :=
  match cuenta with
  | O => []
  | S c => i :: range_desde (i + paso) paso c
  end.

Definition range_paso (n paso : nat) : list nat :=
  range_desde 0 paso (Nat.div (n + paso - 1) paso).

(** [enumerate(l)] *)
Definition enumerate {A : Type} (l : list A) : list (nat * A) :=
  combine (seq 0 (length l)) l.

End Py.

Import Py.

Notation "x <- m ;; k" := (bind m (fun x => k))
  (at level 61, m at next level, right associativity).
Notation "' pat <- m ;; k" := (bind m (fun x => match x with pat => k end))
  (at level 61, pat pattern, m at next level, right associativity).

(** ** The NumPy operations the program uses *)

Module Np.

Definition zeros (n : nat) : list R := repeat 0 n.

Definition sum (a : list R) : R := fold_right Rplus 0 a.

(** [np.linspace(start, stop, num)], end point included (NumPy's default):
    [num] samples [start + j * (stop - start) / (num - 1)]. *)
Definition linspace (start stop : R) (num : nat) : list R :=
  match num with
  | O => []
  | S O => [start]
  | S (S _) =>
      map (fun j => INR j * ((stop - start) / INR (num - 1)) + start)
          (seq 0 num)
  end.

Fixpoint map2 {A : Type} (f : A -> A -> A) (a b : list A) : list A :=
  match a, b with
  | x :: a', y :: b' => f x y :: map2 f a' b'
  | _, _ => []
  end.

(** Binary elementwise operation on one-dimensional arrays, with NumPy's
    broadcasting: equal lengths, or one operand of length 1. *)
Definition broadcast2 {A : Type} (f : A -> A -> A) (a b : list A)
  : result (list A) :=
  if Nat.eqb (length a) (length b) then Return (map2 f a b)
  else match a, b with
       | [x], _ => Return (map (f x) b)
       | _, [y] => Return (map (fun x => f x y) a)
       | _, _ => Raise ValueError
       end.

(** [a * c] for a scalar [c]. *)
Definition escala (a : list R) (c : R) : list R := map (fun x => x * c) a.

(** [a[lo:hi]] for [0 <= lo], [0 <= hi]; the bounds are clipped. *)
Definition getslice (a : list R) (lo hi : nat) : list R :=
  firstn (hi - lo) (skipn lo a).

(** [a[lo:hi] = v] for an array [v]: [v] must have the length of the
    clipped slice, or length 1. *)
Definition setslice (a : list R) (lo hi : nat) (v : list R) : result (list R) :=
  let lo' := Nat.min lo (length a) in
  let L := (Nat.min hi (length a) - lo')%nat in
  if Nat.eqb (length v) L then
    Return (firstn lo' a ++ v ++ skipn (lo' + L) a)
  else if Nat.eqb (length v) 1 then
    Return (firstn lo' a ++ repeat (hd 0 v) L ++ skipn (lo' + L) a)
  else Raise ValueError.

(** [a[lo:hi] = c] for a scalar [c]. *)
Definition fillslice (a : list R) (lo hi : nat) (c : R) : list R :=
  let lo' := Nat.min lo (length a) in
  let L := (Nat.min hi (length a) - lo')%nat in
  firstn lo' a ++ repeat c L ++ skipn (lo' + L) a.

(** [a[i] = x] for [0 <= i]. *)
Fixpoint setitem {A : Type} (a : list A) (i : nat) (x : A) : result (list A) :=
  match a, i with
  | [], _ => Raise IndexError
  | _ :: a', O => Return (x :: a')
  | y :: a', S i' => r <- setitem a' i' x ;; Return (y :: r)
  end.

(** [np.trapz(y, x)]: composite trapezoidal rule; [y] and [x] have the
    same length at both call sites. *)
Fixpoint trapz (y x : list R) : R :=
  match y, x with
  | y0 :: ((y1 :: _) as y'), x0 :: ((x1 :: _) as x') =>
      (x1 - x0) * (y1 + y0) / 2 + trapz y' x'
  | _, _ => 0
  end.

(** The state of NumPy's global generator: the stream of standard normal
    variates it will deliver and the position of the next one. *)
Record rng : Type := { normales : nat -> R; pos : nat }.

(** [np.random.normal(loc, scale, size)]: [size] fresh variates, each
    scaled and shifted. *)
Definition random_normal (loc scale : R) (size : nat) (g : rng)
  : list R * rng :=
  (map (fun j => loc + scale * normales g (pos g + j)) (seq 0 size),
   {| normales := normales g; pos := pos g + size |}).

End Np.

(** ** BPSK *)

(** The carrier samples of one period. *)
Definition periodo_sen (fc : R) (t_periodo : list R) : list R :=
  map (fun t => sin (2 * PI * fc * t)) t_periodo.

Definition periodo_cos (fc : R) (t_periodo : list R) : list R :=
  map (fun t => cos (2 * PI * fc * t)) t_periodo.

(** Body of the loop of [modulador]; the state is [(senal_Tx, moduladora)]. *)
Definition modulador_paso (portadora : list R) (mpp : nat)
  (ib : nat * Z) (st : list R * list R) : result (list R * list R) :=
  let '(i, bit) := ib in
  let '(senal_Tx, moduladora) := st in
  if Z.eqb bit 1 then
    s <- Np.setslice senal_Tx (i * mpp) ((i + 1) * mpp) portadora ;;
    Return (s, Np.fillslice moduladora (i * mpp) ((i + 1) * mpp) 1)
  else
    s <- Np.setslice senal_Tx (i * mpp) ((i + 1) * mpp)
           (Np.escala portadora (-1)) ;;
    Return (s, Np.fillslice moduladora (i * mpp) ((i + 1) * mpp) 0).

(** [modulador(bits, fc, mpp)]: returns
    [(senal_Tx, P_senal_Tx, portadora, moduladora)]. *)
Definition modulador (bits : list Z) (fc : R) (mpp : nat)
  : result (list R * R * list R * list R) :=
  let N := length bits in
  Tc <- Py.div 1 fc ;;
  let t_periodo := Np.linspace 0 Tc mpp in
  let portadora := periodo_sen fc t_periodo in
  let t_simulacion := Np.linspace 0 (INR N * Tc) (N * mpp) in
  let senal_Tx := Np.zeros (length t_simulacion) in
  let moduladora := Np.zeros (length t_simulacion) in
  '(senal_Tx, moduladora) <-
     for_each (enumerate bits) (modulador_paso portadora mpp)
       (senal_Tx, moduladora) ;;
  k <- Py.div 1 (INR N * Tc) ;;
  let P_senal_Tx := k * Np.trapz (map (fun x => x ^ 2) senal_Tx) t_simulacion in
  Return (senal_Tx, P_senal_Tx, portadora, moduladora).

(** [canal_ruidoso(senal_Tx, Pm, SNR)], reading the generator state [g]:
    the arithmetic of the function over the reals.  The exceptions of
    its scalar operations and its results that are not finite numbers
    are in [canal_ruidoso_float] below. *)
Definition potencia_ruido (Pm SNR : R) : R := Pm / Rpower 10 (SNR / 10).

Definition canal_ruidoso (senal_Tx : list R) (Pm SNR : R) (g : Np.rng)
  : list R * Np.rng :=
  let Pn := potencia_ruido Pm SNR in
  let '(ruido, g') := Np.random_normal 0 (sqrt Pn) (length senal_Tx) g in
  (Np.map2 Rplus senal_Tx ruido, g').

(** *** The range of Python floats in [canal_ruidoso]

    [canal_ruidoso] above is the arithmetic of the function.  The scalar
    operations on its arguments [Pm] and [SNR], Python numbers as in the
    script ([SNR = -5]), are also bounded by the range of IEEE doubles:
    [pow] raises OverflowError when its result is too large for a double,
    a result too small for a double is [0.0], and dividing by [0.0]
    raises ZeroDivisionError.  [canal_ruidoso_float] adds these bounds;
    within them the values are still exact reals, without rounding. *)

(** A result at or above this bound, half-way between the largest double
    [2^1024 - 2^971] and [2^1024], rounds to infinity. *)
Definition umbral_overflow : R := IZR (2 ^ 1024 - 2 ^ 970).

(** A positive result at or below this bound, half of the smallest
    positive double [2^(-1074)], rounds to [0.0]. *)
Definition umbral_cero : R := / IZR (2 ^ 1075).

(** [pow(10, x)] for a Python float [x]. *)
Definition pow10 (x : R) : result R :=
  if Rle_dec umbral_overflow (Rpower 10 x) then Raise OverflowError
  else if Rle_dec (Rpower 10 x) umbral_cero then Return 0
  else Return (Rpower 10 x).

(** A float array: finite samples, or [n] entries that are not finite
    numbers (each one nan, inf or -inf). *)
Inductive arreglo : Type :=
| Finito (muestras : list R)
| NoFinito (n : nat).


(** [canal_ruidoso(senal_Tx, Pm, SNR)] for finite samples [senal_Tx] and
    Python numbers [Pm], [SNR].  [np.sqrt] of a negative [Pn] is nan and
    a [Pn] beyond the doubles is inf: with such a scale every variate,
    and every sample of the sum, is not a finite number.  The generator
    is read in every case that reaches [np.random.normal]. *)
Definition canal_ruidoso_float (senal_Tx : list R) (Pm SNR : R) (g : Np.rng)
  : result (arreglo * Np.rng) :=
  p <- pow10 (SNR / 10) ;;
  Pn <- Py.div Pm p ;;
  let '(ruido, g') := Np.random_normal 0 (sqrt Pn) (length senal_Tx) g in
  if Rlt_dec Pn 0 then Return (NoFinito (length senal_Tx), g')
  else if Rle_dec umbral_overflow Pn then Return (NoFinito (length senal_Tx), g')
  else Return (Finito (Np.map2 Rplus senal_Tx ruido), g').

(** The decision of the energy detector. *)
Definition decision (Ep : R) : Z := if Rlt_dec 0 Ep then 1%Z else 0%Z.

(** Body of the demodulation loop; the state is
    [(bits_Rx, senal_demodulada)]. *)
Definition demodulador_paso (senal_Rx portadora : list R) (mpp : nat)
  (i : nat) (st : list Z * list R) : result (list Z * list R) :=
  let '(bits_Rx, senal_demodulada) := st in
  producto <- Np.broadcast2 Rmult
                (Np.getslice senal_Rx (i * mpp) ((i + 1) * mpp)) portadora ;;
  let Ep := Np.sum producto in
  d <- Np.setslice senal_demodulada (i * mpp) ((i + 1) * mpp) producto ;;
  b <- Np.setitem bits_Rx i (decision Ep) ;;
  Return (b, d).

(** [demodulador(senal_Rx, portadora, mpp)]: returns
    [(bits_Rx.astype(int), senal_demodulada)]; the entries of [bits_Rx]
    are only ever 0 or 1, so they are kept as integers throughout. *)
Definition demodulador (senal_Rx portadora : list R) (mpp : nat)
  : result (list Z * list R) :=
  let M := length senal_Rx in
  N <- Py.int_div M mpp ;;
  let bits_Rx := repeat 0%Z N in
  let senal_demodulada := Np.zeros M in
  let Es := Np.sum (Np.map2 Rmult portadora portadora) in
  for_each (seq 0 N) (demodulador_paso senal_Rx portadora mpp)
    (bits_Rx, senal_demodulada).

(** ** 16-QAM *)

(** One arm of the [if]/[elif] chain of [modulador_16QAM]: the four
    literals of its test, the factors applied to the cosine and sine
    carriers, and the four constants written to [moduladora]. *)
Record rama : Type := fila {
  lit0 : Z; lit1 : Z; lit2 : Z; lit3 : Z;
  amp_cos : Z; amp_sen : Z;
  ind0 : Z; ind1 : Z; ind2 : Z; ind3 : Z
}.

(** The fifteen tested arms, in source order, and the final [else]. *)
Definition ramas : list rama := [
  fila 0 0 0 0 (-3) 3 0 0 0 0;
  fila 0 0 0 1 (-3) 1 0 0 0 1;
  fila 0 0 1 0 (-3) (-3) 0 0 1 0;
  fila 0 0 1 1 (-3) (-1) 0 0 1 1;
  fila 0 1 0 0 (-1) 3 0 0 1 0;
  fila 0 1 0 1 (-1) 1 0 1 0 1;
  fila 0 1 1 0 (-1) (-3) 0 1 1 0;
  fila 0 1 1 1 (-1) (-1) 0 1 1 1;
  fila 1 0 0 0 3 3 1 0 0 0;
  fila 1 0 0 1 3 1 1 0 0 1;
  fila 1 0 1 0 3 (-3) 1 0 1 0;
  fila 1 0 1 1 3 (-1) 1 0 1 1;
  fila 1 1 0 0 1 3 1 1 0 0;
  fila 1 1 0 1 1 1 1 1 0 1;
  fila 1 1 1 0 1 (-3) 1 1 1 0
]%Z.

Definition rama_else : rama := fila 1 1 1 1 1 (-1) 1 1 1 1.

(** The test of one arm,
    [(bits[i] == l0) and (bits[i+1] == l1) and (bits[i+2] == l2) and (bits[i+2] == l3)]:
    [and] evaluates left to right and stops at the first false conjunct;
    the fourth conjunct reads [bits[i+2]] again. *)
Definition condicion (bits : list Z) (i : nat) (r : rama) : result bool :=
  b0 <- getitem bits i ;;
  if negb (Z.eqb b0 (lit0 r)) then Return false else
  b1 <- getitem bits (i + 1) ;;
  if negb (Z.eqb b1 (lit1 r)) then Return false else
  b2 <- getitem bits (i + 2) ;;
  if negb (Z.eqb b2 (lit2 r)) then Return false else
  b2' <- getitem bits (i + 2) ;;
  Return (Z.eqb b2' (lit3 r)).

(** The chain: the first arm whose test holds, else the [else] arm. *)
Fixpoint elegir (bits : list Z) (i : nat) (rs : list rama) : result rama :=
  match rs with
  | [] => Return rama_else
  | r :: rs' =>
      c <- condicion bits i r ;;
      if c then Return r else elegir bits i rs'
  end.

(** The four assignments to [senal_Tx] of the chosen arm. *)
Definition asignar_senal_Tx (senal_Tx : list R) (i mpp : nat)
  (portadora_cos portadora_sen : list R) (r : rama) : result (list R) :=
  s1 <- Np.setslice senal_Tx (i * mpp) ((i + 1) * mpp)
          (Np.escala portadora_cos (IZR (amp_cos r))) ;;
  s2 <- Np.setslice s1 ((i + 1) * mpp) ((i + 2) * mpp)
          (Np.escala portadora_cos (IZR (amp_cos r))) ;;
  s3 <- Np.setslice s2 ((i + 2) * mpp) ((i + 3) * mpp)
          (Np.escala portadora_sen (IZR (amp_sen r))) ;;
  Np.setslice s3 ((i + 3) * mpp) ((i + 4) * mpp)
          (Np.escala portadora_sen (IZR (amp_sen r))).

(** [nombre[lo:hi] = c] for a name that is not local: the name is looked
    up in the module environment and the array it denotes is updated. *)
Definition asignar_rebanada_global (G : entorno) (nombre : string)
  (lo hi : nat) (c : R) : result entorno :=
  v <- buscar G nombre ;;
  match v with
  | VArreglo a => Return (ligar G nombre (VArreglo (Np.fillslice a lo hi c)))
  | _ => Raise TypeError
  end.

(** The four assignments to [moduladora] of the chosen arm.  The function
    binds [moduladora_cos] and [moduladora_sin] but not [moduladora]. *)
Definition asignar_moduladora (G : entorno) (i mpp : nat) (r : rama)
  : result entorno :=
  G1 <- asignar_rebanada_global G "moduladora" (i * mpp) ((i + 1) * mpp)
          (IZR (ind0 r)) ;;
  G2 <- asignar_rebanada_global G1 "moduladora" ((i + 1) * mpp) ((i + 2) * mpp)
          (IZR (ind1 r)) ;;
  G3 <- asignar_rebanada_global G2 "moduladora" ((i + 2) * mpp) ((i + 3) * mpp)
          (IZR (ind2 r)) ;;
  asignar_rebanada_global G3 "moduladora" ((i + 3) * mpp) ((i + 4) * mpp)
          (IZR (ind3 r)).

(** Body of the loop of [modulador_16QAM]; the state is [(senal_Tx, G)]. *)
Definition modulador_16QAM_paso (bits : list Z) (mpp : nat)
  (portadora_cos portadora_sen : list R)
  (i : nat) (st : list R * entorno) : result (list R * entorno) :=
  let '(senal_Tx, G) := st in
  r <- elegir bits i ramas ;;
  s <- asignar_senal_Tx senal_Tx i mpp portadora_cos portadora_sen r ;;
  G' <- asignar_moduladora G i mpp r ;;
  Return (s, G').

(** [modulador_16QAM(bits, fc, mpp)] called with module environment [G]:
    returns [(senal_Tx, Pm_senal_Tx, portadora_16QAM, moduladora)].  The
    two [print] calls do not affect the result. *)
Definition modulador_16QAM (G : entorno) (bits : list Z) (fc : R) (mpp : nat)
  : result (list R * R * list R * valor) :=
  let N := length bits in
  Tc <- Py.div 1 fc ;;
  let t_periodo := Np.linspace 0 Tc mpp in
  let portadora_cos := periodo_cos fc t_periodo in
  let portadora_sen := periodo_sen fc t_periodo in
  let bits_chunk := Nat.div (length bits) 4 in
  let t_simulacion := Np.linspace 0 (INR N * Tc) (N * mpp) in
  let senal_Tx := Np.zeros (length t_simulacion) in
  let moduladora_cos := Np.zeros (length t_simulacion) in
  let moduladora_sin := Np.zeros (length t_simulacion) in
  '(senal_Tx, G) <-
     for_each (range_paso (length bits) 4)
       (modulador_16QAM_paso bits mpp portadora_cos portadora_sen)
       (senal_Tx, G) ;;
  k <- Py.div 1 (INR N * Tc) ;;
  let Pm_senal_Tx := k * Np.trapz (map (fun x => x ^ 2) senal_Tx) t_simulacion in
  let portadora_16QAM := Np.map2 Rplus portadora_cos portadora_sen in
  moduladora <- buscar G "moduladora" ;;
  Return (senal_Tx, Pm_senal_Tx, portadora_16QAM, moduladora).

(** [demodulador_16QAM(senal_Rx, portadora_16QAM, mpp)] called with module
    environment [G].  The function binds [bits_chunk] but not [N]. *)
Definition demodulador_16QAM (G : entorno) (senal_Rx portadora_16QAM : list R)
  (mpp : nat) : result (list Z * list R) :=
  let M := length senal_Rx in
  bits_chunk <- Py.int_div M mpp ;;
  let bits_Rx := repeat 0%Z (bits_chunk * 4) in
  let senal_demodulada := Np.zeros M in
  let Es := Np.sum (map (fun x => x ^ 2) portadora_16QAM) in
  N <- buscar G "N" ;;
  match N with
  | VEntero n =>
      for_each (seq 0 (Z.to_nat n))
        (demodulador_paso senal_Rx portadora_16QAM mpp)
        (bits_Rx, senal_demodulada)
  | _ => Raise TypeError
  end.

(** ** The script *)

(** Every name the script binds at module level (imports, [def]s and
    assignments, in source order), followed by the builtins the file
    uses.  Integer constants keep their value.  The table holds the
    bindings of the whole script, so a name that is missing here is
    unbound at every point of its execution; Python's other builtins
    contain neither [N] nor [moduladora]. *)
Definition globales_P4 : entorno :=
  map (fun n => (n, VObjeto))
    ["Image"; "np"; "stats"; "plt"; "fuente_info"; "rgb_a_bit"; "modulador";
     "canal_ruidoso"; "demodulador"; "bits_a_rgb"; "modulador_16QAM";
     "demodulador_16QAM"; "time"]%string
  ++ [("fc", VEntero 5000); ("mpp", VEntero 20); ("SNR", VEntero (-5))]%string
  ++ map (fun n => (n, VObjeto))
    ["inicio"; "imagen_TX"; "dimensiones_16QAM"; "bits_TX"; "senal_TX";
     "Pm_senal_TX"; "portadora_16QAM"; "moduladora_16QAM"; "senal_RX";
     "bits_RX"; "senal_demodulada_16QAM"; "imagen_RX"; "Fig";
     "errores_16QAM"; "BER_16QAM"; "ax"; "imgplot"; "fig"; "ax1"; "ax2";
     "ax3"; "ax4"]%string
  ++ [("T", VEntero 200); ("t_final", VEntero 600)]%string
  ++ map (fun n => (n, VObjeto))
    ["t"; "P"; "Prom";
     "print"; "len"; "int"; "range"; "pow"; "sum"; "abs"; "format"; "list";
     "map"; "str"; "enumerate"]%string.

(** [errores_16QAM = sum(abs(bits_TX - bits_RX))] on integer arrays.  The
    entries are integers without bound: the wrap-around of 64-bit
    entries, which bits never reach, is not modelled. *)
Definition errores_16QAM (bits_TX bits_RX : list Z) : result Z :=
  d <- Np.broadcast2 Z.sub bits_TX bits_RX ;;
  Return (fold_left Z.add (map Z.abs d) 0%Z).

(** [BER_16QAM = errores_16QAM / len(bits_TX)]; the pair
    [(errores_16QAM, BER_16QAM)] is what the script reports. *)
Definition BER_16QAM (bits_TX bits_RX : list Z) : result (Z * R) :=
  e <- errores_16QAM bits_TX bits_RX ;;
  ber <- Py.div (IZR e) (INR (length bits_TX)) ;;
  Return (e, ber).

(** ** The image codec *)

(** The Python string operations of [rgb_a_bit] and [bits_a_rgb]. *)
Module Cadena.

(** Binary digits of a positive number, most significant first, in front
    of [acc]. *)
Fixpoint binario_pos (p : positive) (acc : string) : string :=
  match p with
  | xH => String "1" acc
  | xO p' => binario_pos p' (String "0" acc)
  | xI p' => binario_pos p' (String "1" acc)
  end.

(** [format(n, 'b')] for [n >= 0]. *)
Definition binario (n : N) : string :=
  match n with
  | N0 => "0"%string
  | Npos p => binario_pos p EmptyString
  end.

Fixpoint ceros (k : nat) (s : string) : string :=
  match k with
  | O => s
  | S k' => String "0" (ceros k' s)
  end.

(** [format(n, '08b')] for [n >= 0]: padded with zeros on the left up to
    width 8; a longer numeral is not cut. *)
Definition format_08b (n : N) : string :=
  let s := binario n in ceros (8 - String.length s) s.

(** [''.join(l)] *)
Definition join (l : list string) : string :=
  fold_right String.append EmptyString l.

(** [int(c)] for a one-character string: a decimal digit, else
    ValueError. *)
Definition int_de_caracter (c : ascii) : result Z :=
  let n := nat_of_ascii c in
  if (Nat.leb 48 n && Nat.leb n 57)%bool then Return (Z.of_nat (n - 48))
  else Raise ValueError.

(** [str(z)] for an integer: its decimal numeral. *)
Definition str (z : Z) : string := NilZero.string_of_int (Z.to_int z).

(** The digits of [int(s, 2)], after the sign. *)
Fixpoint digitos_base2 (s : string) (acc : Z) : result Z :=
  match s with
  | EmptyString => Return acc
  | String c s' =>
      if Ascii.eqb c "0" then digitos_base2 s' (2 * acc)%Z
      else if Ascii.eqb c "1" then digitos_base2 s' (2 * acc + 1)%Z
      else Raise ValueError
  end.

(** [int(s, 2)] for a string made of decimal numerals (digits and minus
    signs only, as [''.join(map(str, canal))] is): an optional sign and
    at least one binary digit, else ValueError. *)
Definition int_base2 (s : string) : result Z :=
  match s with
  | EmptyString => Raise ValueError
  | String c s' =>
      if Ascii.eqb c "-" then
        match s' with
        | EmptyString => Raise ValueError
        | _ => v <- digitos_base2 s' 0%Z ;; Return (- v)%Z
        end
      else digitos_base2 s 0%Z
  end.

End Cadena.

(** A list comprehension whose element expression can raise. *)
Fixpoint mapM {A B : Type} (f : A -> result B) (l : list A)
  : result (list B) :=
  match l with
  | [] => Return []
  | x :: l' => y <- f x ;; ys <- mapM f l' ;; Return (y :: ys)
  end.

(** A NumPy array of [uint8]: its shape and its entries in C order. *)
Record ndarray : Type := { forma : list nat; datos : list N }.

Definition producto_forma (dims : list nat) : nat := fold_right Nat.mul 1%nat dims.

(** [np.reshape(a, dims)] on the flat entries: the sizes must agree. *)
Definition reshape {A : Type} (a : list A) (dims : list nat)
  : result (list A) :=
  if Nat.eqb (length a) (producto_forma dims) then Return a
  else Raise ValueError.

(** Consecutive pieces of the given sizes. *)
Fixpoint cortar {A : Type} (a : list A) (tam : list nat) : list (list A) :=
  match tam with
  | [] => []
  | t :: tam' => firstn t a :: cortar (skipn t a) tam'
  end.

(** [np.array_split(a, Nsections)]: [len(a) mod Nsections] pieces of
    size [len(a) // Nsections + 1], then pieces of size
    [len(a) // Nsections]. *)
Definition array_split {A : Type} (a : list A) (Nsections : nat)
  : result (list (list A)) :=
  match Nsections with
  | O => Raise ValueError
  | S _ =>
      let Neach := Nat.div (length a) Nsections in
      let extras := Nat.modulo (length a) Nsections in
      Return (cortar a (repeat (S Neach) extras
                        ++ repeat Neach (Nsections - extras)))
  end.

(** [np.split(a, len(a) / 8)].  The number of sections is the float
    [len(a) / 8]: [np.split] first evaluates [len(a) % (len(a) / 8)],
    a float modulo that raises when [len(a) = 0] and is zero otherwise,
    and then calls [array_split], which truncates the float. *)
Definition split_octavos {A : Type} (a : list A) : result (list (list A)) :=
  match length a with
  | O => Raise ZeroDivisionError
  | S _ => array_split a (Nat.div (length a) 8)
  end.

(** [rgb_a_bit(array_imagen)]: the bits of the pixels, 8 per pixel for
    [uint8] values, most significant first. *)
Definition rgb_a_bit (array_imagen : ndarray) : result (list Z) :=
  match forma array_imagen with
  | [x; y; z] =>
      let n_elementos := (x * y * z)%nat in
      pixeles <- reshape (datos array_imagen) [n_elementos] ;;
      let bits := map Cadena.format_08b pixeles in
      mapM Cadena.int_de_caracter (list_ascii_of_string (Cadena.join bits))
  | _ => Raise ValueError
  end.

(** [int(''.join(map(str, canal)), 2)] *)
Definition canal_a_entero (canal : list Z) : result Z :=
  Cadena.int_base2 (Cadena.join (map Cadena.str canal)).

(** [bits_a_rgb(bits_Rx, dimensiones)]; [astype(np.uint8)] keeps the
    value modulo 256. *)
Definition bits_a_rgb (bits_Rx : list Z) (dimensiones : list nat)
  : result ndarray :=
  bits <- split_octavos bits_Rx ;;
  canales <- mapM canal_a_entero bits ;;
  pixeles <- reshape canales dimensiones ;;
  Return {| forma := dimensiones;
            datos := map (fun v => Z.to_N (v mod 256)) pixeles |}.

(** ** Notions used to state the properties *)

(** A bit. *)
Definition es_bit (b : Z) : Prop := b = 0%Z \/ b = 1%Z.

(** The pair (cosine factor, sine factor) that the chain of
    [modulador_16QAM] selects for the symbol [b0 b1 b2 b3]. *)
Definition constelacion (b0 b1 b2 b3 : Z) : result (Z * Z) :=
  r <- elegir [b0; b1; b2; b3] 0 ramas ;;
  Return (amp_cos r, amp_sen r).

(** The sixteen 4-bit patterns. *)
Definition patrones : list (Z * Z * Z * Z) :=
  let bit := [0; 1]%Z in
  flat_map (fun b0 => flat_map (fun b1 => flat_map (fun b2 =>
    map (fun b3 => (b0, b1, b2, b3)) bit) bit) bit) bit.

Definition literales (r : rama) : Z * Z * Z * Z :=
  (lit0 r, lit1 r, lit2 r, lit3 r).

Definition amplitudes (r : rama) : Z * Z := (amp_cos r, amp_sen r).

(** Inner product of the [i]-th segment of [mpp] samples with the carrier:
    the value [Ep] of the demodulation loop. *)
Definition energia (senal_Rx portadora : list R) (mpp i : nat) : R :=
  Np.sum (Np.map2 Rmult (Np.getslice senal_Rx (i * mpp) ((i + 1) * mpp))
            portadora).

(** Number of positions at which two sequences differ. *)
Fixpoint hamming (a b : list Z) : Z :=
  match a, b with
  | x :: a', y :: b' => ((if Z.eqb x y then 0 else 1) + hamming a' b')%Z
  | _, _ => 0%Z
  end.

Definition complemento (a : list Z) : list Z := map (fun b => (1 - b)%Z) a.

(** The error kind the specification calls InvalidInput: an argument
    rejected by validation, which Python signals with [ValueError]. *)
Definition InvalidInput (e : exn) : Prop := e = ValueError.

(** The exceptions that executing the arm of one symbol of
    [modulador_16QAM] can raise, and those a call can end in. *)
Definition errores_simbolo : list exn :=
  [IndexError; ValueError; NameError "moduladora"].

Definition errores_modulador_16QAM : list exn :=
  ZeroDivisionError :: errores_simbolo.

(** The samples [modulador] writes for one bit: the carrier for a 1, the
    negated carrier otherwise. *)
Definition bloque_BPSK (portadora : list R) (bit : Z) : list R :=
  if Z.eqb bit 1 then portadora else Np.escala portadora (-1).

(** Every block has width [w]. *)
Definition ancho (w : nat) (bs : list (list R)) : Prop :=
  Forall (fun b => length b = w) bs.

(** A generator whose variates are all zero: the zero-noise channel. *)
Definition sin_ruido (g : Np.rng) : Prop := forall n, Np.normales g n = 0.

Definition generador_nulo : Np.rng :=
  {| Np.normales := fun _ => 0; Np.pos := 0 |}.

(** A generator whose [n]-th variate is [n + 1]. *)
Definition generador_rampa : Np.rng :=
  {| Np.normales := fun n => INR n + 1; Np.pos := 0 |}.


(** ** Notions used to state the properties of the codec *)

(** The eight bits of a pixel value, most significant first. *)
Definition bits_de_pixel (p : N) : list Z :=
  map (fun k => if N.testbit p (N.of_nat (7 - k)) then 1%Z else 0%Z)
      (seq 0 8).

(** The number a sequence of binary digits denotes, most significant
    first. *)
Definition valor_binario (bs : list Z) : Z :=
  fold_left (fun acc b => (2 * acc + b)%Z) bs 0%Z.

(** An array whose entries fill its shape. *)
Definition bien_formado (a : ndarray) : Prop :=
  length (datos a) = producto_forma (forma a).

(** ** Notions used to state the properties of the BPSK link *)

(** The samples [modulador] writes to [moduladora] for one bit. *)
Definition bloque_moduladora (mpp : nat) (bit : Z) : list R :=
  repeat (if Z.eqb bit 1 then 1 else 0) mpp.

(** The time-average power [modulador] computes for a waveform of
    [N] bits. *)
Definition potencia_media (senal_Tx : list R) (N : nat) (fc : R) (mpp : nat)
  : R :=
  1 / (INR N * (1 / fc))
  * Np.trapz (map (fun x => x ^ 2) senal_Tx)
      (Np.linspace 0 (INR N * (1 / fc)) (N * mpp)).

(** A bit sequence with every value other than 1 replaced by 0. *)
Definition binarizar (bits : list Z) : list Z :=
  map (fun b => if Z.eqb b 1 then 1%Z else 0%Z) bits.

(** ** Notions used to state the properties of the 16-QAM chain *)

(** The cosine factor of the arm reached with first bits [b0], [b1]. *)
Definition factor_cos (b0 b1 : Z) : Z :=
  if Z.eqb b0 0 then (if Z.eqb b1 0 then -3 else -1)%Z
  else (if Z.eqb b1 0 then 3 else 1)%Z.

(** The sine factor of the arm reached with third bit [b2]. *)
Definition factor_sen (b2 : Z) : Z := if Z.eqb b2 0 then 3%Z else (-1)%Z.

(** * Properties *)

(** ** Arrays and slices *)

Section Arreglos.

Lemma linspace_length (a b : R) (n : nat) : length (Np.linspace a b n) = n.
Proof.
  destruct n as [|[|n]]; simpl; trivial.
  now rewrite length_map, length_seq.
Qed.

Lemma linspace_nth (a b : R) (n j : nat) :
  (2 <= n)%nat -> (j < n)%nat ->
  nth j (Np.linspace a b n) 0 = INR j * ((b - a) / INR (n - 1)) + a.
Proof.
  intros Hn Hj.
  destruct n as [|[|n]]; try lia.
  unfold Np.linspace.
  set (f := fun j : nat => INR j * ((b - a) / INR (S (S n) - 1)) + a).
  rewrite (nth_indep _ 0 (f 0%nat)) by now rewrite length_map, length_seq.
  rewrite map_nth, seq_nth by assumption.
  reflexivity.
Qed.

Lemma zeros_length (n : nat) : length (Np.zeros n) = n.
Proof. apply repeat_length. Qed.

Lemma escala_length (a : list R) (c : R) : length (Np.escala a c) = length a.
Proof. apply length_map. Qed.

Lemma escala_nth (a : list R) (c : R) (j : nat) :
  nth j (Np.escala a c) 0 = nth j a 0 * c.
Proof.
  unfold Np.escala.
  rewrite <- (map_nth (fun x => x * c) a 0 j).
  f_equal. ring.
Qed.

Lemma firstn_prefijo {A : Type} (pre post : list A) :
  firstn (length pre) (pre ++ post) = pre.
Proof.
  rewrite firstn_app, Nat.sub_diag, firstn_all. simpl. apply app_nil_r.
Qed.

Lemma skipn_prefijo {A : Type} (pre post : list A) :
  skipn (length pre) (pre ++ post) = post.
Proof.
  rewrite skipn_app, Nat.sub_diag, skipn_all. reflexivity.
Qed.

(** Assigning to the slice that holds [mid] replaces exactly [mid]. *)
Lemma setslice_ventana (pre mid post v : list R) (lo hi : nat) :
  lo = length pre -> hi = (lo + length mid)%nat -> length v = length mid ->
  Np.setslice (pre ++ mid ++ post) lo hi v = Return (pre ++ v ++ post).
Proof.
  intros -> -> Hv. unfold Np.setslice.
  rewrite !length_app.
  replace (Nat.min (length pre) (length pre + (length mid + length post)))
    with (length pre) by lia.
  replace (Nat.min (length pre + length mid)
             (length pre + (length mid + length post)) - length pre)%nat
    with (length mid) by lia.
  rewrite Hv, Nat.eqb_refl.
  rewrite firstn_prefijo.
  assert (E : skipn (length pre + length mid) (pre ++ mid ++ post) = post).
  { rewrite <- length_app, (app_assoc pre mid post). apply skipn_prefijo. }
  now rewrite E.
Qed.

Lemma fillslice_length (a : list R) (lo hi : nat) (c : R) :
  length (Np.fillslice a lo hi c) = length a.
Proof.
  unfold Np.fillslice.
  rewrite !length_app, repeat_length, length_firstn, length_skipn. lia.
Qed.

(** A buffer long enough splits around the window [lo, lo + w). *)
Lemma partir_ventana (a : list R) (lo w : nat) :
  (lo + w <= length a)%nat ->
  exists pre mid post,
    a = pre ++ mid ++ post /\ length pre = lo /\ length mid = w.
Proof.
  intros H.
  exists (firstn lo a), (firstn w (skipn lo a)), (skipn w (skipn lo a)).
  rewrite !firstn_skipn, !length_firstn, length_skipn.
  repeat split; lia.
Qed.

Lemma setitem_ok {A : Type} (a : list A) (i : nat) (x d : A) :
  (i < length a)%nat ->
  exists a', Np.setitem a i x = Return a' /\ length a' = length a /\
             nth i a' d = x /\ forall j, j <> i -> nth j a' d = nth j a d.
Proof.
  revert i. induction a as [|y a IH]; intros i Hi; simpl in Hi; [lia|].
  destruct i as [|i].
  - exists (x :: a). simpl. repeat split; trivial.
    intros [|j] Hj; [congruence | reflexivity].
  - destruct (IH i ltac:(lia)) as (a' & E & L & Hn & Ho).
    exists (y :: a'). simpl. rewrite E. simpl.
    repeat split; auto.
    intros [|j] Hj; [reflexivity | apply Ho; congruence].
Qed.

Lemma map2_length {A : Type} (f : A -> A -> A) (a b : list A) :
  length a = length b -> length (Np.map2 f a b) = length a.
Proof.
  revert b. induction a as [|x a IH]; intros [|y b] H; simpl in *;
    try congruence.
  f_equal. apply IH. congruence.
Qed.

Lemma map2_nth (f : R -> R -> R) (a b : list R) (j : nat) :
  length a = length b -> (j < length a)%nat ->
  nth j (Np.map2 f a b) 0 = f (nth j a 0) (nth j b 0).
Proof.
  revert b j. induction a as [|x a IH]; intros [|y b] j H Hj; simpl in *;
    try lia.
  destruct j as [|j]; [reflexivity|].
  apply IH; [congruence | lia].
Qed.

Lemma broadcast2_iguales {A : Type} (f : A -> A -> A) (a b : list A) :
  length a = length b -> Np.broadcast2 f a b = Return (Np.map2 f a b).
Proof.
  intros H. unfold Np.broadcast2. now rewrite H, Nat.eqb_refl.
Qed.

End Arreglos.

(** ** The constellation chain *)

Section Constelacion.

(** The chain never reads the fourth bit of the symbol. *)
Lemma constelacion_ignora_cuarto_bit (b0 b1 b2 b3 b3' : Z) :
  constelacion b0 b1 b2 b3 = constelacion b0 b1 b2 b3'.
Proof. reflexivity. Qed.

(** As written in the table, the sixteen arms have sixteen different
    literal patterns and sixteen different amplitude pairs. *)
Lemma ramas_distintas :
  length (ramas ++ [rama_else]) = 16%nat /\
  NoDup (map literales (ramas ++ [rama_else])) /\
  NoDup (map amplitudes (ramas ++ [rama_else])).
Proof.
  split; [reflexivity|].
  split;
    cbv [map app ramas rama_else literales amplitudes
         lit0 lit1 lit2 lit3 amp_cos amp_sen];
    repeat (apply NoDup_cons; [simpl; intuition congruence|]);
    apply NoDup_nil.
Qed.

(** C1 (evaluation of the code at the failing input): the distinct
    patterns 0000 and 0001 select the same pair (-3, 3), so the mapping
    of the conditional chain is not injective, and the pair (-3, 1) that
    the second arm writes is selected by no pattern. *)
Theorem constelacion_colision :
  constelacion 0 0 0 0 = Return (-3, 3)%Z /\
  constelacion 0 0 0 1 = Return (-3, 3)%Z /\
  Forall (fun '(b0, b1, b2, b3) =>
            constelacion b0 b1 b2 b3 <> Return (-3, 1)%Z) patrones.
Proof.
  split; [reflexivity|]. split; [reflexivity|].
  repeat constructor; discriminate.
Qed.

End Constelacion.

(** ** The carrier *)

Section Portadora.

Lemma periodo_sen_length (fc : R) (t : list R) :
  length (periodo_sen fc t) = length t.
Proof. apply length_map. Qed.

Lemma periodo_cos_length (fc : R) (t : list R) :
  length (periodo_cos fc t) = length t.
Proof. apply length_map. Qed.

Lemma periodo_sen_nth (fc : R) (t : list R) (j : nat) :
  (j < length t)%nat ->
  nth j (periodo_sen fc t) 0 = sin (2 * PI * fc * nth j t 0).
Proof.
  intros Hj. unfold periodo_sen.
  rewrite (nth_indep _ 0 (sin (2 * PI * fc * 0))) by now rewrite length_map.
  apply (map_nth (fun t => sin (2 * PI * fc * t))).
Qed.

Lemma periodo_cos_nth (fc : R) (t : list R) (j : nat) :
  (j < length t)%nat ->
  nth j (periodo_cos fc t) 0 = cos (2 * PI * fc * nth j t 0).
Proof.
  intros Hj. unfold periodo_cos.
  rewrite (nth_indep _ 0 (cos (2 * PI * fc * 0))) by now rewrite length_map.
  apply (map_nth (fun t => cos (2 * PI * fc * t))).
Qed.


End Portadora.

(** ** Bit errors *)

Section Errores.

Lemma fold_left_add_acc (l : list Z) (a : Z) :
  fold_left Z.add l a = (a + fold_left Z.add l 0)%Z.
Proof.
  revert a. induction l as [|x l IH]; intros a; simpl; [lia|].
  rewrite (IH (a + x)%Z), (IH x). lia.
Qed.

Lemma suma_abs_hamming (tx rx : list Z) :
  Forall es_bit tx -> Forall es_bit rx -> length tx = length rx ->
  fold_left Z.add (map Z.abs (Np.map2 Z.sub tx rx)) 0%Z = hamming tx rx.
Proof.
  intros Ht. revert rx.
  induction Ht as [|x tx Hx Ht IH]; intros rx Hr Hl;
    destruct Hr as [|y rx Hy Hr]; simpl in *; try discriminate; trivial.
  rewrite fold_left_add_acc, IH by (trivial; congruence).
  destruct Hx as [-> | ->], Hy as [-> | ->]; reflexivity.
Qed.

Lemma errores_hamming (tx rx : list Z) :
  Forall es_bit tx -> Forall es_bit rx -> length tx = length rx ->
  errores_16QAM tx rx = Return (hamming tx rx).
Proof.
  intros Ht Hr Hl. unfold errores_16QAM.
  rewrite broadcast2_iguales by assumption. simpl.
  now rewrite suma_abs_hamming.
Qed.

Lemma hamming_refl (a : list Z) : hamming a a = 0%Z.
Proof.
  induction a as [|x a IH]; simpl; trivial.
  now rewrite Z.eqb_refl, IH.
Qed.

Lemma hamming_complemento (a : list Z) :
  Forall es_bit a -> hamming a (complemento a) = Z.of_nat (length a).
Proof.
  induction 1 as [|x a Hx Ha IH]; trivial.
  cbn [complemento map hamming length]. fold (complemento a). rewrite IH.
  destruct Hx as [-> | ->]; simpl Z.eqb; cbv iota; lia.
Qed.

Lemma complemento_bits (a : list Z) :
  Forall es_bit a -> Forall es_bit (complemento a).
Proof.
  induction 1 as [|x a Hx Ha IH]; simpl; constructor; trivial.
  destruct Hx as [-> | ->]; [now right | now left].
Qed.

Lemma hamming_cotas (a b : list Z) :
  (0 <= hamming a b <= Z.of_nat (length a))%Z.
Proof.
  revert b. induction a as [|x a IH]; intros [|y b]; simpl hamming;
    simpl length; try lia.
  specialize (IH b). destruct (Z.eqb x y); lia.
Qed.

(** C8, as stated, fails on the pair of empty sequences: they are equal
    and of equal length, but the division by [len(bits_TX) = 0] raises
    and no rate is produced. *)
Lemma BER_vacio_falla :
  BER_16QAM [] [] = Raise ZeroDivisionError /\
  BER_16QAM [] [] <> Return (0%Z, 0).
Proof.
  assert (E : BER_16QAM [] [] = Raise ZeroDivisionError).
  { unfold BER_16QAM, errores_16QAM, Py.div. simpl.
    destruct (Req_dec_T 0 0); [reflexivity | contradiction]. }
  split; [exact E | rewrite E; discriminate].
Qed.

(** C8 (amended): for two non-empty bit sequences of equal length the
    evaluation returns the Hamming distance and that distance divided by
    the length; a sequence against itself gives (0, 0) and against its
    complement gives (length, 1). *)
Theorem evaluacion_BER (tx rx : list Z) :
  Forall es_bit tx -> Forall es_bit rx -> length tx = length rx ->
  tx <> [] ->
  BER_16QAM tx rx
    = Return (hamming tx rx, IZR (hamming tx rx) / INR (length tx)) /\
  (0 <= hamming tx rx <= Z.of_nat (length tx))%Z /\
  BER_16QAM tx tx = Return (0%Z, 0) /\
  BER_16QAM tx (complemento tx) = Return (Z.of_nat (length tx), 1).
Proof.
  intros Ht Hr Hl Hne.
  assert (Hlen : INR (length tx) <> 0).
  { apply not_0_INR. destruct tx; [congruence | simpl; lia]. }
  assert (E : forall y, Forall es_bit y -> length tx = length y ->
    BER_16QAM tx y
    = Return (hamming tx y, IZR (hamming tx y) / INR (length tx))).
  { intros y Hy Hly. unfold BER_16QAM.
    rewrite errores_hamming by assumption. simpl.
    unfold Py.div. destruct (Req_dec_T _ 0); [contradiction | reflexivity]. }
  split; [now apply E|]. split; [apply hamming_cotas|]. split.
  - rewrite E, hamming_refl by trivial. do 2 f_equal. field. exact Hlen.
  - rewrite E, hamming_complemento; trivial.
    + do 2 f_equal. rewrite <- INR_IZR_INZ. field. exact Hlen.
    + apply complemento_bits, Ht.
    + unfold complemento. now rewrite length_map.
Qed.

Lemma evaluacion_BER_testigo :
  BER_16QAM [1; 0; 1; 1]%Z [1; 1; 1; 0]%Z
    = Return (hamming [1; 0; 1; 1]%Z [1; 1; 1; 0]%Z,
              IZR (hamming [1; 0; 1; 1]%Z [1; 1; 1; 0]%Z)
              / INR (length [1; 0; 1; 1]%Z)) /\
  (0 <= hamming [1; 0; 1; 1]%Z [1; 1; 1; 0]%Z
     <= Z.of_nat (length [1; 0; 1; 1]%Z))%Z /\
  BER_16QAM [1; 0; 1; 1]%Z [1; 0; 1; 1]%Z = Return (0%Z, 0) /\
  BER_16QAM [1; 0; 1; 1]%Z (complemento [1; 0; 1; 1]%Z)
    = Return (Z.of_nat (length [1; 0; 1; 1]%Z), 1).
Proof.
  apply (evaluacion_BER [1; 0; 1; 1]%Z [1; 1; 1; 0]%Z).
  - repeat constructor; (now left) || (now right).
  - repeat constructor; (now left) || (now right).
  - reflexivity.
  - discriminate.
Defined.

End Errores.

(** ** Names the 16-QAM functions read from the module *)

Section Nombres.

Lemma moduladora_sin_ligar : buscar_opt globales_P4 "moduladora" = None.
Proof. reflexivity. Qed.

Lemma N_sin_ligar : buscar_opt globales_P4 "N" = None.
Proof. reflexivity. Qed.

Lemma asignar_moduladora_falla (G : entorno) (i mpp : nat) (r : rama) :
  buscar_opt G "moduladora" = None ->
  asignar_moduladora G i mpp r = Raise (NameError "moduladora").
Proof.
  intros H. unfold asignar_moduladora, asignar_rebanada_global, buscar.
  now rewrite H.
Qed.

(** C10, as stated, fails for [mpp = 0]: the division [M / mpp] that
    precedes the loop raises first. *)
Lemma demodulador_16QAM_mpp_cero :
  demodulador_16QAM globales_P4 [] [] 0 = Raise ZeroDivisionError /\
  demodulador_16QAM globales_P4 [] [] 0 <> Raise (NameError "N").
Proof. split; [reflexivity | discriminate]. Qed.

(** C10 (amended): no call of the 16-QAM demodulator returns; for
    [mpp >= 1] it raises the NameError of the unbound [N] of
    [range(N)], before any bit is recovered, and for [mpp = 0] the
    division that precedes the loop raises ZeroDivisionError. *)
Theorem demodulador_16QAM_nunca_retorna
  (senal_Rx portadora_16QAM : list R) (mpp : nat) :
  demodulador_16QAM globales_P4 senal_Rx portadora_16QAM mpp
  = Raise (if Nat.eqb mpp 0 then ZeroDivisionError else NameError "N").
Proof.
  unfold demodulador_16QAM.
  destruct mpp as [|mpp]; simpl Py.int_div; cbn [bind Nat.eqb].
  - reflexivity.
  - unfold buscar. now rewrite N_sin_ligar.
Qed.

End Nombres.

(** ** Blocks of equal width *)

Section Bloques.

Variable w : nat.

Lemma concat_ancho_length (bs : list (list R)) :
  ancho w bs -> length (concat bs) = (length bs * w)%nat.
Proof.
  induction 1 as [|b bs Hb Hbs IH]; simpl; trivial.
  rewrite length_app, IH, Hb. reflexivity.
Qed.

Lemma nth_concat_ancho (bs : list (list R)) (p : nat) :
  ancho w bs -> (p < length bs * w)%nat ->
  nth p (concat bs) 0 = nth (p mod w) (nth (p / w) bs []) 0.
Proof.
  intros Hbs. revert p.
  induction Hbs as [|b bs Hb Hbs IH]; intros p Hp; simpl in Hp; [lia|].
  assert (Hw : w <> 0%nat) by lia.
  simpl concat.
  destruct (Nat.lt_ge_cases p w) as [Hlt | Hge].
  - rewrite app_nth1 by lia.
    now rewrite Nat.mod_small, Nat.div_small by assumption.
  - rewrite app_nth2 by lia. rewrite Hb.
    replace p with (1 * w + (p - w))%nat at 2 3 by lia.
    rewrite Nat.add_comm, Nat.Div0.mod_add, Nat.div_add by assumption.
    rewrite Nat.add_1_r. simpl nth. apply IH. lia.
Qed.

Lemma skipn_concat_ancho (bs : list (list R)) (i : nat) :
  ancho w bs -> skipn (i * w) (concat bs) = concat (skipn i bs).
Proof.
  intros Hbs. revert i.
  induction Hbs as [|b bs Hb Hbs IH]; intros i.
  - now rewrite !skipn_nil.
  - destruct i as [|i]; [reflexivity|].
    simpl concat. simpl skipn at 2.
    replace (S i * w)%nat with (i * w + length b)%nat by (rewrite Hb; lia).
    rewrite <- skipn_skipn, skipn_prefijo. apply IH.
Qed.

Lemma getslice_concat_ancho (bs : list (list R)) (i : nat) :
  ancho w bs -> (i < length bs)%nat ->
  Np.getslice (concat bs) (i * w) ((i + 1) * w) = nth i bs [].
Proof.
  intros Hbs Hi. unfold Np.getslice.
  rewrite skipn_concat_ancho by assumption.
  replace ((i + 1) * w - i * w)%nat with w by lia.
  assert (Hs : skipn i bs = nth i bs [] :: skipn (S i) bs).
  { clear Hbs. revert i Hi. induction bs as [|b bs IH]; intros i Hi;
      simpl in Hi; [lia|].
    destruct i as [|i]; [reflexivity|]. simpl. apply IH. lia. }
  rewrite Hs. simpl concat.
  assert (Hl : length (nth i bs []) = w).
  { unfold ancho in Hbs. rewrite Forall_forall in Hbs.
    apply Hbs, nth_In, Hi. }
  rewrite <- Hl at 1. apply firstn_prefijo.
Qed.

End Bloques.

(** ** The 16-QAM modulator *)

Section Modulador16QAM.

Lemma getitem_ok {A : Type} (l : list A) (i : nat) (d : A) :
  (i < length l)%nat -> getitem l i = Return (nth i l d).
Proof.
  intros H. unfold getitem. now rewrite (nth_error_nth' l d H).
Qed.

Lemma condicion_ok (bits : list Z) (i : nat) (r : rama) :
  (i + 2 < length bits)%nat -> exists c, condicion bits i r = Return c.
Proof.
  intros H. unfold condicion.
  rewrite !(getitem_ok bits _ 0%Z) by lia. cbn [bind].
  destruct (negb _); [now eexists|].
  destruct (negb _); [now eexists|].
  destruct (negb _); now eexists.
Qed.

(** With three bits available from position [i] the chain selects an arm
    without raising: [bits[i+3]] is never read. *)
Lemma elegir_ok (bits : list Z) (i : nat) (rs : list rama) :
  (i + 2 < length bits)%nat ->
  exists r, elegir bits i rs = Return r /\ In r (rs ++ [rama_else]).
Proof.
  intros H. induction rs as [|r rs IH]; simpl.
  - exists rama_else. auto.
  - destruct (condicion_ok bits i r H) as (c & ->). cbn [bind].
    destruct c.
    + exists r. auto.
    + destruct IH as (r' & E & Hin). exists r'. auto.
Qed.

Lemma partir_bloque (a : list R) (w n : nat) :
  length a = (w + n)%nat ->
  exists b resto, a = b ++ resto /\ length b = w /\ length resto = n.
Proof.
  intros H. exists (firstn w a), (skipn w a).
  rewrite firstn_skipn, length_firstn, length_skipn. repeat split; lia.
Qed.

(** The four slice assignments of an arm, in closed form. *)
Lemma asignar_senal_Tx_forma (buf : list R) (i mpp : nat)
  (pc ps : list R) (r : rama) :
  length pc = mpp -> length ps = mpp -> ((i + 4) * mpp <= length buf)%nat ->
  asignar_senal_Tx buf i mpp pc ps r
  = Return (firstn (i * mpp) buf
            ++ concat [Np.escala pc (IZR (amp_cos r));
                       Np.escala pc (IZR (amp_cos r));
                       Np.escala ps (IZR (amp_sen r));
                       Np.escala ps (IZR (amp_sen r))]
            ++ skipn ((i + 4) * mpp) buf).
Proof.
  intros Hpc Hps Hbuf.
  set (vc := Np.escala pc (IZR (amp_cos r))).
  set (vs := Np.escala ps (IZR (amp_sen r))).
  assert (Hvc : length vc = mpp) by (unfold vc; now rewrite escala_length).
  assert (Hvs : length vs = mpp) by (unfold vs; now rewrite escala_length).
  destruct (partir_ventana buf (i * mpp) (4 * mpp) ltac:(lia))
    as (pre & mid & post & -> & Lp & Lm).
  destruct (partir_bloque mid mpp (3 * mpp) ltac:(lia))
    as (w1 & m1 & -> & L1 & Lm1).
  destruct (partir_bloque m1 mpp (2 * mpp) ltac:(lia))
    as (w2 & m2 & -> & L2 & Lm2).
  destruct (partir_bloque m2 mpp mpp ltac:(lia))
    as (w3 & w4 & -> & L3 & L4).
  assert (Hpre : firstn (i * mpp)
            (pre ++ (w1 ++ w2 ++ w3 ++ w4) ++ post) = pre).
  { rewrite <- Lp. apply firstn_prefijo. }
  assert (Hpost : skipn ((i + 4) * mpp)
            (pre ++ (w1 ++ w2 ++ w3 ++ w4) ++ post) = post).
  { rewrite app_assoc.
    replace ((i + 4) * mpp)%nat with (length (pre ++ w1 ++ w2 ++ w3 ++ w4))
      by (rewrite !length_app; lia).
    apply skipn_prefijo. }
  rewrite Hpre, Hpost. clear Hpre Hpost Hbuf Lm.
  unfold asignar_senal_Tx. fold vc vs.
  rewrite <- !app_assoc.
  rewrite (setslice_ventana pre w1 (w2 ++ w3 ++ w4 ++ post) vc)
    by lia.
  cbn [bind]. rewrite (app_assoc pre vc).
  rewrite (setslice_ventana (pre ++ vc) w2 (w3 ++ w4 ++ post) vc)
    by (rewrite ?length_app; lia).
  cbn [bind]. rewrite (app_assoc (pre ++ vc) vc).
  rewrite (setslice_ventana ((pre ++ vc) ++ vc) w3 (w4 ++ post) vs)
    by (rewrite ?length_app; lia).
  cbn [bind]. rewrite (app_assoc ((pre ++ vc) ++ vc) vs).
  rewrite (setslice_ventana (((pre ++ vc) ++ vc) ++ vs) w4 post vs)
    by (rewrite ?length_app; lia).
  simpl concat. now rewrite app_nil_r, <- !app_assoc.
Qed.

(** What the four assignments leave in the block of the symbol that starts
    at bit [i]: two periods of the scaled cosine, then two periods of the
    scaled sine; the rest of the buffer is untouched. *)
Lemma asignar_senal_Tx_muestras (buf : list R) (i mpp : nat)
  (pc ps : list R) (r : rama) :
  length pc = mpp -> length ps = mpp -> ((i + 4) * mpp <= length buf)%nat ->
  exists s,
    asignar_senal_Tx buf i mpp pc ps r = Return s /\
    length s = length buf /\
    (forall p, (p < 2 * mpp)%nat ->
       nth (i * mpp + p) s 0 = IZR (amp_cos r) * nth (p mod mpp) pc 0) /\
    (forall p, (2 * mpp <= p < 4 * mpp)%nat ->
       nth (i * mpp + p) s 0 = IZR (amp_sen r) * nth (p mod mpp) ps 0) /\
    (forall q, (q < i * mpp \/ (i + 4) * mpp <= q)%nat ->
       nth q s 0 = nth q buf 0).
Proof.
  intros Hpc Hps Hbuf.
  rewrite (asignar_senal_Tx_forma buf i mpp pc ps r Hpc Hps Hbuf).
  set (vc := Np.escala pc (IZR (amp_cos r))).
  set (vs := Np.escala ps (IZR (amp_sen r))).
  set (pre := firstn (i * mpp) buf).
  set (post := skipn ((i + 4) * mpp) buf).
  assert (Hanc : ancho mpp [vc; vc; vs; vs]).
  { unfold vc, vs. repeat constructor; now rewrite escala_length. }
  assert (Lpre : length pre = (i * mpp)%nat)
    by (unfold pre; rewrite length_firstn; lia).
  assert (Lmid : length (concat [vc; vc; vs; vs]) = (4 * mpp)%nat)
    by (now rewrite (concat_ancho_length mpp)).
  assert (Lpost : length post = (length buf - (i + 4) * mpp)%nat)
    by (unfold post; now rewrite length_skipn).
  assert (Hblk : forall p, (p < 4 * mpp)%nat ->
            nth (i * mpp + p) (pre ++ concat [vc; vc; vs; vs] ++ post) 0
            = nth (p mod mpp) (nth (p / mpp) [vc; vc; vs; vs] []) 0).
  { intros p Hp. rewrite <- Lpre, app_nth2_plus, app_nth1 by lia.
    apply nth_concat_ancho; [exact Hanc | simpl; lia]. }
  eexists. split; [reflexivity|]. split; [|split; [|split]].
  - rewrite !length_app, Lpre, Lmid, Lpost. lia.
  - intros p Hp. rewrite Hblk by lia.
    assert (Hd : (p / mpp < 2)%nat)
      by (apply Nat.Div0.div_lt_upper_bound; lia).
    destruct (p / mpp)%nat as [|[|d]]; try lia;
      simpl nth at 2; unfold vc; rewrite escala_nth; ring.
  - intros p [Hlo Hhi]. rewrite Hblk by lia.
    assert (Hd : (p / mpp < 4)%nat)
      by (apply Nat.Div0.div_lt_upper_bound; lia).
    assert (Hd' : (2 <= p / mpp)%nat)
      by (apply Nat.div_le_lower_bound; lia).
    destruct (p / mpp)%nat as [|[|[|[|d]]]]; try lia;
      simpl nth at 2; unfold vs; rewrite escala_nth; ring.
  - intros q [Hq | Hq].
    + rewrite app_nth1 by lia. unfold pre. rewrite nth_firstn.
      apply Nat.ltb_lt in Hq. now rewrite Hq.
    + rewrite app_nth2 by lia. rewrite app_nth2 by lia.
      unfold post. rewrite nth_skipn. f_equal. lia.
Qed.

End Modulador16QAM.

(** ** Outcome of a call of the 16-QAM modulator *)

Section Modulador16QAMErrores.

Lemma range_paso_primero (n : nat) :
  n <> 0%nat -> exists l, range_paso n 4 = 0%nat :: l.
Proof.
  intros Hn. unfold range_paso.
  assert (H : (1 <= (n + 4 - 1) / 4)%nat)
    by (apply Nat.div_le_lower_bound; lia).
  destruct ((n + 4 - 1) / 4)%nat as [|c]; [lia|].
  simpl. now eexists.
Qed.

Lemma getitem_errores {A : Type} (l : list A) (i : nat) (e : exn) :
  getitem l i = Raise e -> e = IndexError.
Proof.
  unfold getitem. destruct (nth_error l i); [discriminate|]. congruence.
Qed.

Lemma condicion_errores (bits : list Z) (i : nat) (r : rama) (e : exn) :
  condicion bits i r = Raise e -> e = IndexError.
Proof.
  unfold condicion.
  destruct (getitem bits i) eqn:E0; cbn [bind];
    [|intros H; inversion H; subst; eapply getitem_errores; eauto].
  destruct (negb _); [discriminate|].
  destruct (getitem bits (i + 1)) eqn:E1; cbn [bind];
    [|intros H; inversion H; subst; eapply getitem_errores; eauto].
  destruct (negb _); [discriminate|].
  destruct (getitem bits (i + 2)) eqn:E2; cbn [bind];
    [|intros H; inversion H; subst; eapply getitem_errores; eauto].
  destruct (negb _); discriminate.
Qed.

Lemma elegir_errores (bits : list Z) (i : nat) (rs : list rama) (e : exn) :
  elegir bits i rs = Raise e -> e = IndexError.
Proof.
  induction rs as [|r rs IH]; simpl; [discriminate|].
  destruct (condicion bits i r) as [c|e'] eqn:E; cbn [bind].
  - destruct c; [discriminate | exact IH].
  - intros H; inversion H; subst. eapply condicion_errores; eauto.
Qed.

Lemma setslice_errores (a : list R) (lo hi : nat) (v : list R) (e : exn) :
  Np.setslice a lo hi v = Raise e -> e = ValueError.
Proof.
  unfold Np.setslice.
  destruct (Nat.eqb _ _); [discriminate|].
  destruct (Nat.eqb _ _); [discriminate|]. congruence.
Qed.

Lemma asignar_senal_Tx_errores buf i mpp pc ps r (e : exn) :
  asignar_senal_Tx buf i mpp pc ps r = Raise e -> e = ValueError.
Proof.
  unfold asignar_senal_Tx.
  repeat (match goal with
          | |- bind ?m _ = _ -> _ =>
              let E := fresh "E" in
              destruct m eqn:E; cbn [bind];
              [|intros H; inversion H; subst; eapply setslice_errores; eauto]
          end).
  apply setslice_errores.
Qed.

Lemma modulador_16QAM_paso_falla (G : entorno) bits mpp pc ps i s :
  buscar_opt G "moduladora" = None ->
  exists e, modulador_16QAM_paso bits mpp pc ps i (s, G) = Raise e /\
            In e errores_simbolo.
Proof.
  intros HG. unfold modulador_16QAM_paso, errores_simbolo.
  destruct (elegir bits i ramas) as [r|e] eqn:Er; cbn [bind].
  - destruct (asignar_senal_Tx s i mpp pc ps r) as [s'|e] eqn:Es; cbn [bind].
    + rewrite asignar_moduladora_falla by assumption. cbn [bind].
      eexists. split; [reflexivity | simpl; auto].
    + apply asignar_senal_Tx_errores in Es. subst.
      eexists. split; [reflexivity | simpl; auto].
  - apply elegir_errores in Er. subst.
    eexists. split; [reflexivity | simpl; auto].
Qed.

(** With [moduladora] unbound in the module, no call returns: a zero
    frequency or an empty bit sequence stops at a division, any other
    call stops in the arm of the first symbol. *)
Lemma modulador_16QAM_excepcion (G : entorno) (bits : list Z) (fc : R)
  (mpp : nat) :
  buscar_opt G "moduladora" = None ->
  exists e, modulador_16QAM G bits fc mpp = Raise e /\
    ((fc = 0 \/ bits = []) /\ e = ZeroDivisionError \/
     (fc <> 0 /\ bits <> []) /\ In e errores_simbolo).
Proof.
  intros HG. unfold modulador_16QAM, Py.div.
  destruct (Req_dec_T fc 0) as [|Hfc]; cbn [bind].
  { eexists. split; [reflexivity | auto]. }
  destruct bits as [|b bits].
  - cbn [length range_paso]. simpl for_each. cbn [bind].
    destruct (Req_dec_T (INR 0 * (1 / fc)) 0) as [|Hn]; cbn [bind].
    + eexists. split; [reflexivity | auto].
    + exfalso. apply Hn. simpl. ring.
  - destruct (range_paso_primero (length (b :: bits))) as (l & ->);
      [discriminate|].
    cbn [for_each].
    destruct (modulador_16QAM_paso_falla G (b :: bits) mpp
                (periodo_cos fc (Np.linspace 0 (1 / fc) mpp))
                (periodo_sen fc (Np.linspace 0 (1 / fc) mpp)) 0%nat
                (Np.zeros (length (Np.linspace 0
                   (INR (length (b :: bits)) * (1 / fc))
                   (length (b :: bits) * mpp)))) HG)
      as (e & -> & Hin).
    cbn [bind]. exists e. split; [reflexivity|].
    right. split; [split; [assumption | discriminate] | assumption].
Qed.

(** With at least one whole symbol, the first symbol's arm is chosen, its
    four assignments to [senal_Tx] succeed, and the first assignment to
    [moduladora] raises. *)
Lemma modulador_16QAM_NameError (G : entorno) (bits : list Z) (fc : R)
  (mpp : nat) :
  buscar_opt G "moduladora" = None -> fc <> 0 -> (4 <= length bits)%nat ->
  modulador_16QAM G bits fc mpp = Raise (NameError "moduladora").
Proof.
  intros HG Hfc HN. unfold modulador_16QAM, Py.div.
  destruct (Req_dec_T fc 0) as [|_]; [contradiction|]. cbn [bind].
  destruct (range_paso_primero (length bits)) as (l & ->); [lia|].
  cbn [for_each]. unfold modulador_16QAM_paso.
  destruct (elegir_ok bits 0 ramas ltac:(lia)) as (r & -> & _). cbn [bind].
  match goal with
  | |- context [asignar_senal_Tx ?buf ?i ?m ?pc ?ps r] =>
      destruct (asignar_senal_Tx_muestras buf i m pc ps r) as (s & -> & _)
  end.
  - now rewrite periodo_cos_length, linspace_length.
  - now rewrite periodo_sen_length, linspace_length.
  - rewrite zeros_length, linspace_length. nia.
  - cbn [bind]. now rewrite asignar_moduladora_falla.
Qed.

End Modulador16QAMErrores.

(** ** The 16-QAM modulator on valid and invalid lengths *)

Section Modulador16QAMResultados.

(** C9: for every non-empty bit sequence whose length is a multiple of 4,
    every [fc > 0] and every [mpp >= 2], the call of the 16-QAM modulator
    returns nothing: it raises the NameError of the unbound name
    [moduladora] while the arm of the first symbol is executed. *)
Theorem modulador_16QAM_no_retorna (bits : list Z) (fc : R) (mpp : nat) :
  bits <> [] -> (length bits mod 4 = 0)%nat -> 0 < fc -> (2 <= mpp)%nat ->
  modulador_16QAM globales_P4 bits fc mpp = Raise (NameError "moduladora").
Proof.
  intros Hne Hmod Hfc Hmpp.
  apply modulador_16QAM_NameError.
  - exact moduladora_sin_ligar.
  - lra.
  - destruct bits as [|b0 [|b1 [|b2 [|b3 bits]]]]; simpl in *;
      try congruence; try discriminate; lia.
Qed.

Lemma modulador_16QAM_no_retorna_testigo :
  modulador_16QAM globales_P4 [1; 0; 1; 1]%Z 5000 20
  = Raise (NameError "moduladora").
Proof.
  apply (modulador_16QAM_no_retorna [1; 0; 1; 1]%Z 5000 20).
  - discriminate.
  - reflexivity.
  - lra.
  - lia.
Defined.

(** C7, as stated, fails: for five bits the call raises the NameError of
    [moduladora], the very exception raised for a valid length, and not
    an InvalidInput error. *)
Lemma longitud_no_validada :
  (length [0; 0; 0; 0; 0]%Z mod 4 <> 0)%nat /\
  modulador_16QAM globales_P4 [0; 0; 0; 0; 0]%Z 5000 20
  = Raise (NameError "moduladora") /\
  ~ InvalidInput (NameError "moduladora").
Proof.
  split; [simpl; discriminate|]. split; [|discriminate].
  apply modulador_16QAM_NameError.
  - exact moduladora_sin_ligar.
  - lra.
  - simpl. lia.
Qed.

(** C7 (amended): for every bit sequence whose length is not a multiple
    of 4 the call of the 16-QAM modulator returns no waveform.  The
    function has no length check: the call ends in ZeroDivisionError when
    [fc = 0], and otherwise in an exception raised while the arm of the
    first symbol is executed. *)
Theorem modulador_16QAM_longitud_invalida (bits : list Z) (fc : R)
  (mpp : nat) :
  (length bits mod 4 <> 0)%nat ->
  exists e, modulador_16QAM globales_P4 bits fc mpp = Raise e /\
    (fc = 0 /\ e = ZeroDivisionError \/ fc <> 0 /\ In e errores_simbolo).
Proof.
  intros HN.
  assert (Hne : bits <> []) by (intros ->; apply HN; reflexivity).
  destruct (modulador_16QAM_excepcion globales_P4 bits fc mpp
              moduladora_sin_ligar) as (e & E & H).
  exists e. split; [exact E|].
  destruct H as [[[H | H] He] | [[Hfc _] Hin]]; auto; contradiction.
Qed.

Lemma modulador_16QAM_longitud_invalida_testigo :
  exists e, modulador_16QAM globales_P4 [1; 0; 1]%Z 5000 20 = Raise e /\
    (5000 = 0 /\ e = ZeroDivisionError \/
     5000 <> 0 /\ In e errores_simbolo).
Proof.
  apply (modulador_16QAM_longitud_invalida [1; 0; 1]%Z 5000 20).
  simpl. discriminate.
Defined.

End Modulador16QAMResultados.

(** ** The block of a 16-QAM symbol *)

Section BloqueSimbolo.

Lemma primera_muestra_sen (fc Tc : R) (mpp : nat) :
  (2 <= mpp)%nat -> nth 0 (periodo_sen fc (Np.linspace 0 Tc mpp)) 0 = 0.
Proof.
  intros H. rewrite periodo_sen_nth by (rewrite linspace_length; lia).
  rewrite linspace_nth by lia. simpl INR at 1.
  replace (2 * PI * fc * (0 * ((Tc - 0) / INR (mpp - 1)) + 0)) with 0 by ring.
  apply sin_0.
Qed.

Lemma primera_muestra_cos (fc Tc : R) (mpp : nat) :
  (2 <= mpp)%nat -> nth 0 (periodo_cos fc (Np.linspace 0 Tc mpp)) 0 = 1.
Proof.
  intros H. rewrite periodo_cos_nth by (rewrite linspace_length; lia).
  rewrite linspace_nth by lia. simpl INR at 1.
  replace (2 * PI * fc * (0 * ((Tc - 0) / INR (mpp - 1)) + 0)) with 0 by ring.
  apply cos_0.
Qed.

(** C3, as stated, fails: for the symbol 0000 with [fc = 1], [mpp = 2] the
    arm chosen has factors (-3, 3); sample 4 of the block, the first of
    the third period, is [3 * sin 0 = 0], while the superposition
    [-3 * cos 0 + 3 * sin 0] is [-3]. *)
Lemma superposicion_falla :
  let pc := periodo_cos 1 (Np.linspace 0 (1 / 1) 2) in
  let ps := periodo_sen 1 (Np.linspace 0 (1 / 1) 2) in
  exists r s,
    elegir [0; 0; 0; 0]%Z 0 ramas = Return r /\
    asignar_senal_Tx (Np.zeros (4 * 2)) 0 2 pc ps r = Return s /\
    nth 4 s 0 <> IZR (amp_cos r) * nth 0 pc 0 + IZR (amp_sen r) * nth 0 ps 0.
Proof.
  intros pc ps.
  exists (fila 0 0 0 0 (-3) 3 0 0 0 0).
  destruct (asignar_senal_Tx_muestras (Np.zeros (4 * 2)) 0 2 pc ps
              (fila 0 0 0 0 (-3) 3 0 0 0 0))
    as (s & Es & _ & _ & Hsen & _).
  - unfold pc. now rewrite periodo_cos_length, linspace_length.
  - unfold ps. now rewrite periodo_sen_length, linspace_length.
  - rewrite zeros_length. lia.
  - exists s. split; [reflexivity|]. split; [exact Es|].
    specialize (Hsen 4%nat ltac:(lia)).
    change (0 * 2 + 4)%nat with 4%nat in Hsen.
    change (4 mod 2)%nat with 0%nat in Hsen.
    rewrite Hsen. cbn [amp_cos amp_sen]. unfold pc, ps.
    rewrite primera_muestra_sen, primera_muestra_cos by lia. lra.
Qed.

(** C3 (amended): for the symbol [k] of a bit sequence with at least
    [4k + 4] bits, the arm chosen by the chain, with factors (I, Q), fills
    the symbol's block of [4 * mpp] samples with two periods of
    [I * cos] followed by two periods of [Q * sin]; samples outside the
    block are left as they were. *)
Theorem bloque_simbolo (bits : list Z) (fc : R) (mpp k : nat)
  (buf : list R) :
  (4 * k + 4 <= length bits)%nat -> length buf = (length bits * mpp)%nat ->
  let pc := periodo_cos fc (Np.linspace 0 (1 / fc) mpp) in
  let ps := periodo_sen fc (Np.linspace 0 (1 / fc) mpp) in
  exists r s,
    elegir bits (4 * k) ramas = Return r /\
    asignar_senal_Tx buf (4 * k) mpp pc ps r = Return s /\
    length s = length buf /\
    (forall p, (p < 2 * mpp)%nat ->
       nth (4 * k * mpp + p) s 0 = IZR (amp_cos r) * nth (p mod mpp) pc 0) /\
    (forall p, (2 * mpp <= p < 4 * mpp)%nat ->
       nth (4 * k * mpp + p) s 0 = IZR (amp_sen r) * nth (p mod mpp) ps 0) /\
    (forall q, (q < 4 * k * mpp \/ (4 * k + 4) * mpp <= q)%nat ->
       nth q s 0 = nth q buf 0).
Proof.
  intros Hk Hbuf pc ps.
  destruct (elegir_ok bits (4 * k) ramas ltac:(lia)) as (r & Er & _).
  destruct (asignar_senal_Tx_muestras buf (4 * k) mpp pc ps r)
    as (s & Es & H).
  - unfold pc. now rewrite periodo_cos_length, linspace_length.
  - unfold ps. now rewrite periodo_sen_length, linspace_length.
  - rewrite Hbuf. nia.
  - exists r, s. auto.
Qed.

Lemma bloque_simbolo_testigo :
  let pc := periodo_cos 5000 (Np.linspace 0 (1 / 5000) 20) in
  let ps := periodo_sen 5000 (Np.linspace 0 (1 / 5000) 20) in
  exists r s,
    elegir [1; 0; 1; 1]%Z (4 * 0) ramas = Return r /\
    asignar_senal_Tx (Np.zeros 80) (4 * 0) 20 pc ps r = Return s /\
    length s = length (Np.zeros 80) /\
    (forall p, (p < 2 * 20)%nat ->
       nth (4 * 0 * 20 + p) s 0 = IZR (amp_cos r) * nth (p mod 20) pc 0) /\
    (forall p, (2 * 20 <= p < 4 * 20)%nat ->
       nth (4 * 0 * 20 + p) s 0 = IZR (amp_sen r) * nth (p mod 20) ps 0) /\
    (forall q, (q < 4 * 0 * 20 \/ (4 * 0 + 4) * 20 <= q)%nat ->
       nth q s 0 = nth q (Np.zeros 80) 0).
Proof.
  apply (bloque_simbolo [1; 0; 1; 1]%Z 5000 20 0 (Np.zeros 80)).
  - simpl. lia.
  - reflexivity.
Defined.

End BloqueSimbolo.

(** ** The BPSK demodulator *)

Section Demodulador.

Lemma decision_uno (Ep : R) : decision Ep = 1%Z <-> 0 < Ep.
Proof.
  unfold decision. destruct (Rlt_dec 0 Ep); split; trivial;
    try discriminate; contradiction.
Qed.

Lemma decision_cero (Ep : R) : decision Ep = 0%Z <-> Ep <= 0.
Proof.
  unfold decision. destruct (Rlt_dec 0 Ep); split; trivial;
    try discriminate; lra.
Qed.

Lemma int_div_ok (a b : nat) :
  b <> 0%nat -> Py.int_div a b = Return (a / b)%nat.
Proof. destruct b; [congruence | reflexivity]. Qed.

Lemma setslice_ok (a : list R) (lo hi : nat) (v : list R) :
  (lo + length v <= length a)%nat -> hi = (lo + length v)%nat ->
  exists a', Np.setslice a lo hi v = Return a' /\ length a' = length a.
Proof.
  intros H ->.
  destruct (partir_ventana a lo (length v) H) as (pre & mid & post & -> & Lp & Lm).
  rewrite (setslice_ventana pre mid post v) by lia.
  eexists. split; [reflexivity|]. rewrite !length_app. lia.
Qed.

Lemma getslice_length (a : list R) (i w : nat) :
  ((i + 1) * w <= length a)%nat ->
  length (Np.getslice a (i * w) ((i + 1) * w)) = w.
Proof.
  intros H. unfold Np.getslice. rewrite length_firstn, length_skipn. lia.
Qed.

Variables (senal_Rx portadora : list R) (mpp : nat).
Hypothesis Hportadora : length portadora = mpp.

(** One iteration on a symbol interval that lies inside the waveform. *)
Lemma demodulador_paso_ok (i : nat) (b : list Z) (d : list R) :
  ((i + 1) * mpp <= length senal_Rx)%nat -> length d = length senal_Rx ->
  (i < length b)%nat ->
  exists b' d',
    demodulador_paso senal_Rx portadora mpp i (b, d) = Return (b', d') /\
    length b' = length b /\ length d' = length d /\
    nth i b' 0%Z = decision (energia senal_Rx portadora mpp i) /\
    forall j, j <> i -> nth j b' 0%Z = nth j b 0%Z.
Proof.
  intros Hi Hd Hb. unfold demodulador_paso.
  pose proof (getslice_length senal_Rx i mpp Hi) as Hs.
  rewrite broadcast2_iguales by congruence. cbn [bind].
  fold (energia senal_Rx portadora mpp i).
  destruct (setslice_ok d (i * mpp) ((i + 1) * mpp)
              (Np.map2 Rmult
                 (Np.getslice senal_Rx (i * mpp) ((i + 1) * mpp)) portadora))
    as (d' & -> & Ld').
  { rewrite map2_length by congruence. lia. }
  { rewrite map2_length by congruence. lia. }
  cbn [bind].
  destruct (setitem_ok b i (decision (energia senal_Rx portadora mpp i))
              0%Z Hb) as (b' & -> & Lb' & Hn & Ho).
  cbn [bind]. exists b', d'. auto.
Qed.

(** The loop over the symbol intervals [k, k + n). *)
Lemma demodulador_bucle (n : nat) : forall (k : nat) (b : list Z) (d : list R),
  ((k + n) * mpp <= length senal_Rx)%nat -> length d = length senal_Rx ->
  length b = (k + n)%nat ->
  exists b' d',
    for_each (seq k n) (demodulador_paso senal_Rx portadora mpp) (b, d)
      = Return (b', d') /\
    length b' = length b /\
    (forall i, (i < k)%nat -> nth i b' 0%Z = nth i b 0%Z) /\
    (forall i, (k <= i < k + n)%nat ->
       nth i b' 0%Z = decision (energia senal_Rx portadora mpp i)).
Proof.
  induction n as [|n IH]; intros k b d HM Hd Hb.
  - exists b, d. simpl. repeat split; trivial. intros i Hi. lia.
  - cbn [seq for_each].
    destruct (demodulador_paso_ok k b d) as (b1 & d1 & -> & Lb1 & Ld1 & Hk & Ho);
      try lia; try nia.
    cbn [bind].
    destruct (IH (S k) b1 d1) as (b' & d' & -> & Lb' & Hlt & Hge);
      try lia; try nia.
    exists b', d'. split; [reflexivity|]. split; [congruence|]. split.
    + intros i Hi. rewrite Hlt by lia. apply Ho. lia.
    + intros i Hi. destruct (Nat.eq_dec i k) as [->|Hne].
      * rewrite Hlt by lia. exact Hk.
      * apply Hge. lia.
Qed.

Lemma demodulador_ok (N : nat) :
  mpp <> 0%nat -> length senal_Rx = (N * mpp)%nat ->
  exists bits_Rx senal_demodulada,
    demodulador senal_Rx portadora mpp = Return (bits_Rx, senal_demodulada) /\
    length bits_Rx = N /\
    forall i, (i < N)%nat ->
      nth i bits_Rx 0%Z = decision (energia senal_Rx portadora mpp i).
Proof.
  intros Hmpp HM. unfold demodulador. rewrite HM.
  rewrite int_div_ok, Nat.div_mul by assumption. cbn [bind].
  destruct (demodulador_bucle N 0 (repeat 0%Z N) (Np.zeros (N * mpp)))
    as (b' & d' & E & Lb & _ & H).
  - simpl. lia.
  - now rewrite zeros_length.
  - now rewrite repeat_length.
  - exists b', d'. split; [exact E|]. rewrite repeat_length in Lb.
    split; [exact Lb|]. intros i Hi. apply H. lia.
Qed.

End Demodulador.

(** C4: for a received waveform of [N * mpp] samples and a carrier of
    [mpp] samples the BPSK demodulator returns [N] bits; bit [i] is 1
    exactly when the inner product [Ep] of the [i]-th segment with the
    carrier is strictly positive and 0 exactly when [Ep <= 0], so the tie
    [Ep = 0] gives 0. *)
Theorem demodulador_decision (senal_Rx portadora : list R) (mpp N : nat) :
  mpp <> 0%nat -> length portadora = mpp ->
  length senal_Rx = (N * mpp)%nat ->
  exists bits_Rx senal_demodulada,
    demodulador senal_Rx portadora mpp = Return (bits_Rx, senal_demodulada) /\
    length bits_Rx = N /\
    forall i, (i < N)%nat ->
      (nth i bits_Rx 0%Z = 1%Z <-> 0 < energia senal_Rx portadora mpp i) /\
      (nth i bits_Rx 0%Z = 0%Z <-> energia senal_Rx portadora mpp i <= 0) /\
      (energia senal_Rx portadora mpp i = 0 -> nth i bits_Rx 0%Z = 0%Z).
Proof.
  intros Hmpp Hc HM.
  destruct (demodulador_ok senal_Rx portadora mpp Hc N Hmpp HM)
    as (b & d & E & Lb & H).
  exists b, d. split; [exact E|]. split; [exact Lb|].
  intros i Hi. rewrite (H i Hi).
  split; [apply decision_uno|]. split; [apply decision_cero|].
  intros H0. apply decision_cero. lra.
Qed.

Lemma demodulador_decision_testigo :
  exists bits_Rx senal_demodulada,
    demodulador [0; 1; 0; -1] [0; 1] 2 = Return (bits_Rx, senal_demodulada) /\
    length bits_Rx = 2%nat /\
    forall i, (i < 2)%nat ->
      (nth i bits_Rx 0%Z = 1%Z <-> 0 < energia [0; 1; 0; -1] [0; 1] 2 i) /\
      (nth i bits_Rx 0%Z = 0%Z <-> energia [0; 1; 0; -1] [0; 1] 2 i <= 0) /\
      (energia [0; 1; 0; -1] [0; 1] 2 i = 0 -> nth i bits_Rx 0%Z = 0%Z).
Proof.
  apply (demodulador_decision [0; 1; 0; -1] [0; 1] 2 2).
  - discriminate.
  - reflexivity.
  - reflexivity.
Defined.

(** ** The channel *)

Section Canal.

Lemma random_normal_length loc scale size g :
  length (fst (Np.random_normal loc scale size g)) = size.
Proof. simpl. now rewrite length_map, length_seq. Qed.

Lemma random_normal_nth loc scale size g j :
  (j < size)%nat ->
  nth j (fst (Np.random_normal loc scale size g)) 0
  = loc + scale * Np.normales g (Np.pos g + j).
Proof.
  intros Hj. simpl.
  set (f := fun j : nat => loc + scale * Np.normales g (Np.pos g + j)).
  rewrite (nth_indep _ 0 (f 0%nat)) by now rewrite length_map, length_seq.
  rewrite map_nth, seq_nth by assumption. reflexivity.
Qed.

Lemma canal_ruidoso_muestras (senal_Tx : list R) (Pm SNR : R) (g : Np.rng) :
  length (fst (canal_ruidoso senal_Tx Pm SNR g)) = length senal_Tx /\
  (forall j, (j < length senal_Tx)%nat ->
     nth j (fst (canal_ruidoso senal_Tx Pm SNR g)) 0
     = nth j senal_Tx 0
       + sqrt (potencia_ruido Pm SNR) * Np.normales g (Np.pos g + j)) /\
  Np.pos (snd (canal_ruidoso senal_Tx Pm SNR g))
    = (Np.pos g + length senal_Tx)%nat /\
  Np.normales (snd (canal_ruidoso senal_Tx Pm SNR g)) = Np.normales g.
Proof.
  unfold canal_ruidoso.
  pose proof (random_normal_length 0 (sqrt (potencia_ruido Pm SNR))
                (length senal_Tx) g) as HL.
  pose proof (random_normal_nth 0 (sqrt (potencia_ruido Pm SNR))
                (length senal_Tx) g) as HN.
  destruct (Np.random_normal 0 (sqrt (potencia_ruido Pm SNR))
              (length senal_Tx) g) as [ruido g'] eqn:E.
  simpl fst in *. simpl snd.
  assert (Eg : g' = snd (Np.random_normal 0 (sqrt (potencia_ruido Pm SNR))
                           (length senal_Tx) g)) by now rewrite E.
  split; [now rewrite map2_length|]. split; [|split].
  - intros j Hj. rewrite map2_nth, HN by congruence. ring.
  - rewrite Eg. reflexivity.
  - rewrite Eg. reflexivity.
Qed.

(** With a generator that only delivers zeros the channel returns its
    input. *)
Lemma canal_sin_ruido (senal_Tx : list R) (Pm SNR : R) (g : Np.rng) :
  sin_ruido g -> fst (canal_ruidoso senal_Tx Pm SNR g) = senal_Tx.
Proof.
  intros Hg.
  destruct (canal_ruidoso_muestras senal_Tx Pm SNR g) as (HL & HN & _).
  apply (nth_ext _ _ 0 0 HL).
  intros j Hj. rewrite HL in Hj. rewrite (HN j Hj), Hg. ring.
Qed.

(** *** The channel within the range of the doubles *)

Lemma umbral_cero_pos : 0 < umbral_cero.
Proof. apply Rinv_0_lt_compat, IZR_lt. reflexivity. Qed.

Lemma umbrales_orden : umbral_cero < umbral_overflow.
Proof.
  apply (Rlt_trans _ 1).
  - unfold umbral_cero. rewrite <- Rinv_1.
    apply Rinv_lt_contravar; [|apply IZR_lt; reflexivity].
    rewrite Rmult_1_l. apply IZR_lt. reflexivity.
  - apply IZR_lt. reflexivity.
Qed.

Lemma Rpower_10_nat (n : nat) : Rpower 10 (INR n) = IZR (10 ^ Z.of_nat n).
Proof. rewrite Rpower_pow by lra. apply pow_IZR. Qed.

Lemma Rpower_10_300 : Rpower 10 300 = IZR (10 ^ 300).
Proof.
  replace 300 with (INR 300).
  - apply Rpower_10_nat.
  - rewrite INR_IZR_INZ. reflexivity.
Qed.




(** Between -3000 dB and 3000 dB the factor [10^(SNR/10)] is a positive
    double. *)
Lemma pow10_rango (SNR : R) :
  -3000 <= SNR <= 3000 ->
  umbral_cero < Rpower 10 (SNR / 10) < umbral_overflow.
Proof.
  intros [Hlo Hhi]. split.
  - apply (Rlt_le_trans _ (Rpower 10 (Ropp 300))).
    + rewrite Rpower_Ropp, Rpower_10_300. unfold umbral_cero.
      apply Rinv_lt_contravar.
      * apply Rmult_lt_0_compat; apply IZR_lt; reflexivity.
      * apply IZR_lt. reflexivity.
    + apply Rle_Rpower; [lra|]. change (Ropp 300) with (-300). lra.
  - apply (Rle_lt_trans _ (Rpower 10 300)).
    + apply Rle_Rpower; lra.
    + rewrite Rpower_10_300. apply IZR_lt. reflexivity.
Qed.

(** The three outcomes of [pow(10, x)]. *)
Lemma pow10_casos (x : R) :
  (umbral_overflow <= Rpower 10 x -> pow10 x = Raise OverflowError) /\
  (Rpower 10 x <= umbral_cero -> pow10 x = Return 0) /\
  (umbral_cero < Rpower 10 x < umbral_overflow ->
   pow10 x = Return (Rpower 10 x)).
Proof.
  pose proof umbrales_orden as Ho. unfold pow10.
  destruct (Rle_dec umbral_overflow (Rpower 10 x)) as [H1|H1];
    destruct (Rle_dec (Rpower 10 x) umbral_cero) as [H2|H2];
    repeat split; intros; trivial; exfalso; lra.
Qed.

(** Within the range of the doubles [canal_ruidoso_float] returns what
    the arithmetic of [canal_ruidoso] gives. *)
Lemma canal_ruidoso_float_finito (senal_Tx : list R) (Pm SNR : R)
  (g : Np.rng) :
  umbral_cero < Rpower 10 (SNR / 10) < umbral_overflow ->
  0 <= potencia_ruido Pm SNR < umbral_overflow ->
  canal_ruidoso_float senal_Tx Pm SNR g
  = Return (Finito (fst (canal_ruidoso senal_Tx Pm SNR g)),
            snd (canal_ruidoso senal_Tx Pm SNR g)).
Proof.
  intros Hp HPn. pose proof umbral_cero_pos as Hc.
  destruct (pow10_casos (SNR / 10)) as (_ & _ & Hr).
  unfold canal_ruidoso_float, canal_ruidoso. rewrite (Hr Hp). cbn [bind].
  unfold Py.div. destruct (Req_dec_T (Rpower 10 (SNR / 10)) 0) as [E|_];
    [lra|].
  cbn [bind]. fold (potencia_ruido Pm SNR).
  destruct (Np.random_normal 0 (sqrt (potencia_ruido Pm SNR))
              (length senal_Tx) g) as [ruido g'].
  destruct (Rlt_dec (potencia_ruido Pm SNR) 0) as [H|_]; [lra|].
  destruct (Rle_dec umbral_overflow (potencia_ruido Pm SNR)) as [H|_];
    [lra | reflexivity].
Qed.




End Canal.

(** ** The BPSK modulator *)

Section Modulador.

Variables (portadora : list R) (mpp : nat).
Hypothesis Hportadora : length portadora = mpp.

Lemma bloque_BPSK_length (bit : Z) :
  length (bloque_BPSK portadora bit) = mpp.
Proof.
  unfold bloque_BPSK. destruct (Z.eqb bit 1); trivial.
  now rewrite escala_length.
Qed.

Lemma bloques_BPSK_ancho (bits : list Z) :
  ancho mpp (map (bloque_BPSK portadora) bits).
Proof.
  induction bits; simpl; constructor; trivial. apply bloque_BPSK_length.
Qed.

Lemma modulador_paso_bloque (k : nat) (bit : Z) (pre post m : list R) :
  length pre = (k * mpp)%nat ->
  modulador_paso portadora mpp (k, bit) (pre ++ Np.zeros mpp ++ post, m)
  = Return (pre ++ bloque_BPSK portadora bit ++ post,
            Np.fillslice m (k * mpp) ((k + 1) * mpp)
              (if Z.eqb bit 1 then 1 else 0)).
Proof.
  intros Hpre. unfold modulador_paso, bloque_BPSK.
  destruct (Z.eqb bit 1);
    rewrite (setslice_ventana pre (Np.zeros mpp) post)
      by (rewrite ?zeros_length, ?escala_length; lia);
    reflexivity.
Qed.

(** The loop of [modulador] writes the blocks of the bits one after the
    other. *)
Lemma modulador_bucle (bits : list Z) : forall (k : nat) (pre m : list R),
  length pre = (k * mpp)%nat ->
  exists m',
    for_each (combine (seq k (length bits)) bits)
      (modulador_paso portadora mpp)
      (pre ++ Np.zeros (length bits * mpp), m)
    = Return (pre ++ concat (map (bloque_BPSK portadora) bits), m').
Proof.
  induction bits as [|b bits IH]; intros k pre m Hpre.
  - exists m. reflexivity.
  - cbn [length seq combine for_each map concat].
    replace (Np.zeros (S (length bits) * mpp))
      with (Np.zeros mpp ++ Np.zeros (length bits * mpp))
      by (unfold Np.zeros; now rewrite <- repeat_app).
    rewrite modulador_paso_bloque by assumption. cbn [bind].
    rewrite (app_assoc pre (bloque_BPSK portadora b)).
    destruct (IH (S k) (pre ++ bloque_BPSK portadora b)
                (Np.fillslice m (k * mpp) ((k + 1) * mpp)
                   (if Z.eqb b 1 then 1 else 0))) as (m' & ->).
    + rewrite length_app, bloque_BPSK_length. lia.
    + exists m'. now rewrite <- app_assoc.
Qed.

Lemma suma_productos_opuesto (c : list R) :
  Np.sum (Np.map2 Rmult (Np.escala c (-1)) c) = - Np.sum (Np.map2 Rmult c c).
Proof.
  induction c as [|x c IH]; [simpl; ring|].
  change (Np.sum (Np.map2 Rmult (Np.escala (x :: c) (-1)) (x :: c)))
    with (x * -1 * x + Np.sum (Np.map2 Rmult (Np.escala c (-1)) c)).
  change (Np.sum (Np.map2 Rmult (x :: c) (x :: c)))
    with (x * x + Np.sum (Np.map2 Rmult c c)).
  rewrite IH. ring.
Qed.

Lemma suma_cuadrados_no_negativa (c : list R) :
  0 <= Np.sum (Np.map2 Rmult c c).
Proof.
  induction c as [|x c IH]; [simpl; lra|].
  change (Np.sum (Np.map2 Rmult (x :: c) (x :: c)))
    with (x * x + Np.sum (Np.map2 Rmult c c)).
  nra.
Qed.

Lemma suma_cuadrados_positiva (c : list R) (j : nat) :
  nth j c 0 <> 0 -> 0 < Np.sum (Np.map2 Rmult c c).
Proof.
  revert j. induction c as [|x c IH]; intros j Hj.
  - destruct j; simpl in Hj; congruence.
  - change (Np.sum (Np.map2 Rmult (x :: c) (x :: c)))
      with (x * x + Np.sum (Np.map2 Rmult c c)).
    pose proof (suma_cuadrados_no_negativa c) as Hc.
    destruct j as [|j]; simpl in Hj.
    + nra.
    + specialize (IH j Hj). nra.
Qed.

(** The inner product of the block of bit [i] with the carrier. *)
Lemma energia_bloque (bits : list Z) (i : nat) :
  (i < length bits)%nat ->
  energia (concat (map (bloque_BPSK portadora) bits)) portadora mpp i
  = Np.sum (Np.map2 Rmult (bloque_BPSK portadora (nth i bits 0%Z)) portadora).
Proof.
  intros Hi. unfold energia.
  rewrite getslice_concat_ancho
    by (rewrite ?length_map; auto using bloques_BPSK_ancho).
  rewrite (nth_indep _ [] (bloque_BPSK portadora 0%Z))
    by now rewrite length_map.
  now rewrite map_nth.
Qed.

(** Demodulating the modulated blocks against a carrier of positive
    energy gives the bits back. *)
Lemma demodulador_bloques (bits : list Z) :
  mpp <> 0%nat -> 0 < Np.sum (Np.map2 Rmult portadora portadora) ->
  Forall es_bit bits ->
  exists dem,
    demodulador (concat (map (bloque_BPSK portadora) bits)) portadora mpp
    = Return (bits, dem).
Proof.
  intros Hmpp HEs Hbits.
  destruct (demodulador_ok (concat (map (bloque_BPSK portadora) bits))
              portadora mpp Hportadora (length bits) Hmpp)
    as (b & d & E & Lb & H).
  { rewrite (concat_ancho_length mpp) by apply bloques_BPSK_ancho.
    now rewrite length_map. }
  exists d. rewrite E. do 2 f_equal.
  apply (nth_ext _ _ 0%Z 0%Z Lb).
  intros i Hi. rewrite Lb in Hi. rewrite (H i Hi), energia_bloque by assumption.
  rewrite Forall_forall in Hbits.
  destruct (Hbits (nth i bits 0%Z) (nth_In _ _ Hi)) as [-> | ->];
    unfold bloque_BPSK; simpl Z.eqb; cbv iota.
  - rewrite suma_productos_opuesto. apply decision_cero. lra.
  - apply decision_uno, HEs.
Qed.

End Modulador.

(** ** The waveform and the carrier of [modulador] *)

Section IdaYVuelta.

(** [modulador] on a non-empty bit sequence and a non-zero frequency
    returns the concatenated blocks and the sampled sine. *)
Lemma modulador_ok (bits : list Z) (fc : R) (mpp : nat) :
  bits <> [] -> fc <> 0 ->
  let portadora := periodo_sen fc (Np.linspace 0 (1 / fc) mpp) in
  exists P moduladora,
    modulador bits fc mpp
    = Return (concat (map (bloque_BPSK portadora) bits), P, portadora,
              moduladora).
Proof.
  intros Hne Hfc portadora. unfold modulador, Py.div, enumerate.
  destruct (Req_dec_T fc 0) as [|_]; [contradiction|]. cbn [bind].
  fold portadora. rewrite linspace_length.
  assert (Hc : length portadora = mpp)
    by (unfold portadora; now rewrite periodo_sen_length, linspace_length).
  destruct (modulador_bucle portadora mpp Hc bits 0 []
              (Np.zeros (length bits * mpp)) eq_refl) as (m' & E).
  cbn [app] in E. rewrite E. cbn [bind].
  destruct (Req_dec_T (INR (length bits) * (1 / fc)) 0) as [H0|_].
  - exfalso. apply Rmult_integral in H0. destruct H0 as [H0 | H0].
    + apply (not_0_INR (length bits)); [|exact H0].
      destruct bits; [congruence | discriminate].
    + unfold Rdiv in H0. rewrite Rmult_1_l in H0.
      now apply (Rinv_neq_0_compat fc).
  - cbn [bind]. now eexists _, _.
Qed.

(** Sample [j] of the carrier is [sin (2 pi j / (mpp - 1))]. *)
Lemma portadora_nth (fc : R) (mpp j : nat) :
  fc <> 0 -> (2 <= mpp)%nat -> (j < mpp)%nat ->
  nth j (periodo_sen fc (Np.linspace 0 (1 / fc) mpp)) 0
  = sin (2 * PI * INR j / INR (mpp - 1)).
Proof.
  intros Hfc Hmpp Hj.
  rewrite periodo_sen_nth by now rewrite linspace_length.
  rewrite linspace_nth by assumption.
  f_equal. field. split; [apply not_0_INR; lia | exact Hfc].
Qed.

(** From four samples per period on, the carrier has positive energy. *)
Lemma portadora_energia_positiva (fc : R) (mpp : nat) :
  fc <> 0 -> (4 <= mpp)%nat ->
  let portadora := periodo_sen fc (Np.linspace 0 (1 / fc) mpp) in
  0 < Np.sum (Np.map2 Rmult portadora portadora).
Proof.
  intros Hfc Hmpp portadora.
  apply (suma_cuadrados_positiva portadora 1).
  unfold portadora. rewrite portadora_nth by (trivial; lia).
  assert (H3 : 3 <= INR (mpp - 1)).
  { replace 3 with (INR 3) by (simpl; ring). apply le_INR. lia. }
  pose proof PI_RGT_0 as Hpi.
  simpl INR at 1.
  assert (Hpos : 0 < 2 * PI * 1 / INR (mpp - 1)).
  { apply Rdiv_lt_0_compat; lra. }
  assert (Hlt : 2 * PI * 1 / INR (mpp - 1) < PI).
  { apply (Rmult_lt_reg_r (INR (mpp - 1))); [lra|].
    unfold Rdiv. rewrite Rmult_assoc, Rinv_l by lra. nra. }
  pose proof (sin_gt_0 _ Hpos Hlt). lra.
Qed.

End IdaYVuelta.

(** ** The image codec: one pixel *)

Section Pixel.

(** Every 8-bit value is written as its eight bits, and eight bits are
    read back as the value: checked on the 256 values. *)
Lemma pixeles_comprobados :
  forallb (fun p =>
    match mapM Cadena.int_de_caracter
            (list_ascii_of_string (Cadena.format_08b p)) with
    | Return bs =>
        (if list_eq_dec Z.eq_dec bs (bits_de_pixel p) then true else false)
        && match canal_a_entero bs with
           | Return v => Z.eqb v (Z.of_N p)
           | Raise _ => false
           end
    | Raise _ => false
    end) (map N.of_nat (seq 0 256)) = true.
Proof. vm_compute. reflexivity. Qed.

Lemma pixel_codec (p : N) :
  (p < 256)%N ->
  mapM Cadena.int_de_caracter (list_ascii_of_string (Cadena.format_08b p))
    = Return (bits_de_pixel p) /\
  canal_a_entero (bits_de_pixel p) = Return (Z.of_N p).
Proof.
  intros Hp.
  pose proof pixeles_comprobados as H. rewrite forallb_forall in H.
  specialize (H p).
  assert (Hin : In p (map N.of_nat (seq 0 256))).
  { rewrite <- (N2Nat.id p). apply in_map, in_seq. lia. }
  specialize (H Hin).
  destruct (mapM _ _) as [bs|]; [|discriminate].
  apply andb_prop in H. destruct H as [H1 H2].
  destruct (list_eq_dec Z.eq_dec bs (bits_de_pixel p)) as [->|];
    [|discriminate].
  split; [reflexivity|].
  destruct (canal_a_entero (bits_de_pixel p)); [|discriminate].
  apply Z.eqb_eq in H2. now subst.
Qed.

Lemma bits_de_pixel_length (p : N) : length (bits_de_pixel p) = 8%nat.
Proof. reflexivity. Qed.

Lemma bits_de_pixel_bits (p : N) : Forall es_bit (bits_de_pixel p).
Proof.
  unfold bits_de_pixel. apply Forall_forall. intros b Hb.
  apply in_map_iff in Hb. destruct Hb as (k & <- & _).
  destruct (N.testbit _ _); [now right | now left].
Qed.

End Pixel.

(** ** The image codec: arrays *)

Section Codec.

Lemma mapM_app {A B : Type} (f : A -> result B) (a b : list A) ra rb :
  mapM f a = Return ra -> mapM f b = Return rb ->
  mapM f (a ++ b) = Return (ra ++ rb).
Proof.
  revert ra. induction a as [|x a IH]; intros ra Ha Hb; simpl in *.
  - inversion Ha. exact Hb.
  - destruct (f x) as [y|]; [|discriminate]. cbn [bind] in *.
    destruct (mapM f a) as [ys|]; [|discriminate]. cbn [bind] in *.
    inversion Ha. now rewrite (IH ys eq_refl Hb).
Qed.

Lemma mapM_map {A B : Type} (f : A -> result B) (g : A -> B) (l : list A) :
  (forall x, In x l -> f x = Return (g x)) -> mapM f l = Return (map g l).
Proof.
  induction l as [|x l IH]; intros H; simpl; trivial.
  rewrite (H x) by now left. cbn [bind].
  rewrite IH by (intros y Hy; apply H; now right). reflexivity.
Qed.

Lemma mapM_length {A B : Type} (f : A -> result B) (l : list A) r :
  mapM f l = Return r -> length r = length l.
Proof.
  revert r. induction l as [|x l IH]; intros r H; simpl in *.
  - now inversion H.
  - destruct (f x) as [y|]; [|discriminate]. cbn [bind] in *.
    destruct (mapM f l) as [ys|]; [|discriminate]. cbn [bind] in *.
    inversion H. simpl. f_equal. now apply IH.
Qed.

Lemma list_ascii_app (s t : string) :
  list_ascii_of_string (s ++ t)
  = list_ascii_of_string s ++ list_ascii_of_string t.
Proof. induction s as [|c s IH]; simpl; [reflexivity | now rewrite IH]. Qed.

(** The characters of the joined numerals are read back pixel by pixel. *)
Lemma leer_pixeles (ps : list N) :
  Forall (fun p => (p < 256)%N) ps ->
  mapM Cadena.int_de_caracter
    (list_ascii_of_string (Cadena.join (map Cadena.format_08b ps)))
  = Return (concat (map bits_de_pixel ps)).
Proof.
  induction 1 as [|p ps Hp Hps IH]; [reflexivity|].
  cbn [map Cadena.join fold_right concat]. rewrite list_ascii_app.
  apply mapM_app; [now apply pixel_codec | exact IH].
Qed.

Lemma cortar_bloques {A : Type} (w : nat) (bs : list (list A)) :
  Forall (fun b => length b = w) bs ->
  cortar (concat bs) (repeat w (length bs)) = bs.
Proof.
  induction 1 as [|b bs Hb Hbs IH]; [reflexivity|].
  cbn [length repeat concat cortar].
  assert (E1 : firstn w (b ++ concat bs) = b)
    by (rewrite <- Hb; apply firstn_prefijo).
  assert (E2 : skipn w (b ++ concat bs) = concat bs)
    by (rewrite <- Hb; apply skipn_prefijo).
  now rewrite E1, E2, IH.
Qed.

Lemma concat_length_bloques {A : Type} (w : nat) (bs : list (list A)) :
  Forall (fun b => length b = w) bs ->
  length (concat bs) = (length bs * w)%nat.
Proof.
  induction 1 as [|b bs Hb Hbs IH]; simpl; trivial.
  rewrite length_app, IH, Hb. reflexivity.
Qed.

(** A non-empty sequence of blocks of 8 is split into those blocks. *)
Lemma split_octavos_bloques {A : Type} (bs : list (list A)) :
  bs <> [] -> Forall (fun b => length b = 8%nat) bs ->
  split_octavos (concat bs) = Return bs.
Proof.
  intros Hne Hbs. unfold split_octavos.
  rewrite (concat_length_bloques 8 bs Hbs).
  assert (Hn : length bs <> 0%nat) by (destruct bs; [congruence | discriminate]).
  destruct (length bs * 8)%nat as [|m] eqn:Em; [lia|]. rewrite <- Em.
  rewrite Nat.div_mul by lia. unfold array_split.
  destruct (length bs) as [|n] eqn:En; [lia|]. rewrite <- En.
  rewrite (concat_length_bloques 8 bs Hbs).
  replace (length bs * 8 / length bs)%nat with 8%nat
    by (rewrite Nat.mul_comm, Nat.div_mul; lia).
  replace ((length bs * 8) mod length bs)%nat with 0%nat
    by (rewrite Nat.mul_comm, Nat.Div0.mod_mul; reflexivity).
  cbn [repeat app]. rewrite Nat.sub_0_r.
  now rewrite cortar_bloques.
Qed.

Lemma uint8_ida_y_vuelta (ps : list N) :
  Forall (fun p => (p < 256)%N) ps ->
  map (fun v => Z.to_N (v mod 256)) (map Z.of_N ps) = ps.
Proof.
  induction 1 as [|p ps Hp Hps IH]; [reflexivity|].
  cbn [map]. rewrite IH. f_equal.
  rewrite Z.mod_small by lia. apply N2Z.id.
Qed.

(** What [rgb_a_bit] returns for an array of 8-bit values. *)
Lemma rgb_a_bit_valor (x y z : nat) (ps : list N) :
  length ps = (x * y * z)%nat -> Forall (fun p => (p < 256)%N) ps ->
  rgb_a_bit {| forma := [x; y; z]; datos := ps |}
  = Return (concat (map bits_de_pixel ps)).
Proof.
  intros Hl Hps. unfold rgb_a_bit, reshape, producto_forma.
  cbn [forma datos fold_right].
  rewrite Nat.mul_1_r, Hl, Nat.eqb_refl. cbn [bind].
  now apply leer_pixeles.
Qed.

(** What [bits_a_rgb] returns for the bits of 8-bit values. *)
Lemma bits_a_rgb_valor (ps : list N) (dims : list nat) :
  ps <> [] -> length ps = producto_forma dims ->
  Forall (fun p => (p < 256)%N) ps ->
  bits_a_rgb (concat (map bits_de_pixel ps)) dims
  = Return {| forma := dims; datos := ps |}.
Proof.
  intros Hne Hl Hps. unfold bits_a_rgb.
  rewrite split_octavos_bloques.
  - cbn [bind].
    assert (E : mapM canal_a_entero (map bits_de_pixel ps)
                = Return (map Z.of_N ps)).
    { clear Hne Hl. induction Hps as [|p ps Hp Hps IH]; [reflexivity|].
      cbn [map mapM]. destruct (pixel_codec p Hp) as [_ ->]. cbn [bind].
      now rewrite IH. }
    rewrite E. cbn [bind]. unfold reshape.
    rewrite length_map, Hl, Nat.eqb_refl. cbn [bind].
    now rewrite uint8_ida_y_vuelta.
  - destruct ps; [congruence | discriminate].
  - apply Forall_forall. intros b Hb. apply in_map_iff in Hb.
    destruct Hb as (p & <- & _). reflexivity.
Qed.

End Codec.

(** ** The image codec: results *)

Section CodecResultados.

Lemma nth_concat_bloques {A : Type} (w : nat) (bs : list (list A))
  (p : nat) (d : A) :
  Forall (fun b => length b = w) bs -> (p < length bs * w)%nat ->
  nth p (concat bs) d = nth (p mod w) (nth (p / w) bs []) d.
Proof.
  intros Hbs. revert p.
  induction Hbs as [|b bs Hb Hbs IH]; intros p Hp; simpl in Hp; [lia|].
  assert (Hw : w <> 0%nat) by lia.
  simpl concat.
  destruct (Nat.lt_ge_cases p w) as [Hlt | Hge].
  - rewrite app_nth1 by lia.
    now rewrite Nat.mod_small, Nat.div_small by assumption.
  - rewrite app_nth2 by lia. rewrite Hb.
    replace p with (1 * w + (p - w))%nat at 2 3 by lia.
    rewrite Nat.add_comm, Nat.Div0.mod_add, Nat.div_add by assumption.
    rewrite Nat.add_1_r. simpl nth. apply IH. lia.
Qed.

Lemma Forall_firstn {A : Type} (P : A -> Prop) (n : nat) (l : list A) :
  Forall P l -> Forall P (firstn n l).
Proof.
  intros H. revert n. induction H as [|x l Hx Hl IH]; intros [|n]; simpl;
    constructor; auto.
Qed.

Lemma Forall_skipn {A : Type} (P : A -> Prop) (n : nat) (l : list A) :
  Forall P l -> Forall P (skipn n l).
Proof.
  intros H. revert n. induction H as [|x l Hx Hl IH]; intros [|n]; simpl;
    auto.
Qed.

(** X1: for an array of shape (x, y, z) holding 8-bit values [rgb_a_bit]
    returns 8 bits per value, in the order of the values and most
    significant bit first; every entry of the result is 0 or 1. *)
Theorem rgb_a_bit_bits (a : ndarray) (x y z : nat) :
  forma a = [x; y; z] -> bien_formado a ->
  Forall (fun p => (p < 256)%N) (datos a) ->
  exists bits,
    rgb_a_bit a = Return bits /\
    length bits = (8 * (x * y * z))%nat /\
    Forall es_bit bits /\
    forall k j, (k < x * y * z)%nat -> (j < 8)%nat ->
      nth (8 * k + j) bits 0%Z
      = if N.testbit (nth k (datos a) 0%N) (N.of_nat (7 - j))
        then 1%Z else 0%Z.
Proof.
  destruct a as [dims ps]. cbn [forma datos]. unfold bien_formado.
  cbn [forma datos]. intros -> Hl Hps.
  unfold producto_forma in Hl. cbn [fold_right] in Hl.
  assert (Hl' : length ps = (x * y * z)%nat) by lia.
  assert (Hw : Forall (fun b => length b = 8%nat) (map bits_de_pixel ps)).
  { apply Forall_forall. intros b Hb. apply in_map_iff in Hb.
    destruct Hb as (p & <- & _). reflexivity. }
  exists (concat (map bits_de_pixel ps)).
  split; [now apply rgb_a_bit_valor|]. split; [|split].
  - rewrite (concat_length_bloques 8) by exact Hw.
    rewrite length_map. lia.
  - apply Forall_concat, Forall_forall. intros b Hb.
    apply in_map_iff in Hb. destruct Hb as (p & <- & _).
    apply bits_de_pixel_bits.
  - intros k j Hk Hj.
    rewrite (nth_concat_bloques 8) by (trivial; rewrite length_map; lia).
    replace (8 * k + j)%nat with (j + k * 8)%nat by lia.
    rewrite Nat.Div0.mod_add, Nat.div_add, Nat.mod_small, Nat.div_small
      by lia.
    cbn [Nat.add].
    rewrite (nth_indep _ [] (bits_de_pixel 0%N)) by (rewrite length_map; lia).
    rewrite (map_nth bits_de_pixel ps 0%N k). unfold bits_de_pixel.
    set (f := fun k0 : nat =>
                if N.testbit (nth k ps 0%N) (N.of_nat (7 - k0))
                then 1%Z else 0%Z).
    rewrite (nth_indep _ 0%Z (f 0%nat))
      by (rewrite length_map, length_seq; lia).
    rewrite (map_nth f (seq 0 8) 0%nat j), seq_nth by lia. reflexivity.
Qed.

Lemma rgb_a_bit_bits_testigo :
  exists bits,
    rgb_a_bit {| forma := [1; 1; 2]%nat; datos := [5; 255]%N |}
      = Return bits /\
    length bits = (8 * (1 * 1 * 2))%nat /\
    Forall es_bit bits /\
    forall k j, (k < 1 * 1 * 2)%nat -> (j < 8)%nat ->
      nth (8 * k + j) bits 0%Z
      = if N.testbit (nth k [5; 255]%N 0%N) (N.of_nat (7 - j))
        then 1%Z else 0%Z.
Proof.
  apply (rgb_a_bit_bits {| forma := [1; 1; 2]%nat; datos := [5; 255]%N |}
           1 1 2).
  - reflexivity.
  - reflexivity.
  - repeat constructor.
Defined.

(** X2: for an array of shape (x, y, z) holding 8-bit values, decoding
    the bits that [rgb_a_bit] returns with the array's own shape gives
    the array back, unless the array is empty: then [rgb_a_bit] returns
    no bits and [bits_a_rgb] raises ZeroDivisionError. *)
Theorem codec_ida_y_vuelta (a : ndarray) (x y z : nat) :
  forma a = [x; y; z] -> bien_formado a ->
  Forall (fun p => (p < 256)%N) (datos a) ->
  exists bits,
    rgb_a_bit a = Return bits /\
    bits_a_rgb bits (forma a)
    = match datos a with
      | [] => Raise ZeroDivisionError
      | _ :: _ => Return a
      end.
Proof.
  destruct a as [dims ps]. unfold bien_formado. cbn [forma datos].
  intros -> Hl Hps.
  exists (concat (map bits_de_pixel ps)). split.
  - apply rgb_a_bit_valor; trivial.
    unfold producto_forma in Hl. cbn [fold_right] in Hl. lia.
  - destruct ps as [|p ps]; [reflexivity|].
    apply bits_a_rgb_valor; trivial. discriminate.
Qed.

Lemma codec_ida_y_vuelta_testigo :
  exists bits,
    rgb_a_bit {| forma := [1; 1; 2]%nat; datos := [5; 255]%N |}
      = Return bits /\
    bits_a_rgb bits [1; 1; 2]%nat
    = Return {| forma := [1; 1; 2]%nat; datos := [5; 255]%N |}.
Proof.
  apply (codec_ida_y_vuelta
           {| forma := [1; 1; 2]%nat; datos := [5; 255]%N |} 1 1 2).
  - reflexivity.
  - reflexivity.
  - repeat constructor.
Defined.

(** X3: on fewer than 8 bits [bits_a_rgb] raises whatever the shape
    asked for: ZeroDivisionError on an empty sequence (the modulo by
    [0 / 8]) and ValueError otherwise (zero sections). *)
Theorem bits_a_rgb_pocos_bits (bits_Rx : list Z) (dimensiones : list nat) :
  (length bits_Rx < 8)%nat ->
  bits_a_rgb bits_Rx dimensiones
  = Raise (match bits_Rx with
           | [] => ZeroDivisionError
           | _ :: _ => ValueError
           end).
Proof.
  intros H. unfold bits_a_rgb, split_octavos.
  destruct bits_Rx as [|b bits]; [reflexivity|].
  cbn [length] in *. rewrite Nat.div_small by lia. reflexivity.
Qed.

Lemma bits_a_rgb_pocos_bits_testigo :
  bits_a_rgb [1; 0; 1]%Z [1; 1; 1]%nat = Raise ValueError.
Proof.
  apply (bits_a_rgb_pocos_bits [1; 0; 1]%Z [1; 1; 1]%nat). simpl. lia.
Defined.

End CodecResultados.

(** ** The image codec: lengths that are not multiples of 8 *)

Section CodecLongitudes.

Lemma digitos_bits (bs : list Z) :
  Forall es_bit bs -> forall acc,
  Cadena.digitos_base2 (Cadena.join (map Cadena.str bs)) acc
  = Return (fold_left (fun a b => (2 * a + b)%Z) bs acc).
Proof.
  induction 1 as [|b bs Hb Hbs IH]; intros acc; [reflexivity|].
  destruct Hb as [-> | ->]; cbn -[Z.mul Z.add]; rewrite IH; do 2 f_equal; lia.
Qed.

(** A non-empty chunk of bits is read as the binary number it spells. *)
Lemma canal_a_entero_bits (bs : list Z) :
  Forall es_bit bs -> bs <> [] ->
  canal_a_entero bs = Return (valor_binario bs).
Proof.
  intros Hbs Hne. unfold canal_a_entero, valor_binario.
  rewrite <- (digitos_bits bs Hbs 0%Z).
  destruct Hbs as [|b bs Hb Hbs]; [congruence|].
  destruct Hb as [-> | ->]; reflexivity.
Qed.

Lemma list_sum_repeat (a n : nat) : list_sum (repeat a n) = (n * a)%nat.
Proof. induction n as [|n IH]; simpl; [reflexivity | now rewrite IH]. Qed.

Lemma cortar_trozos {A : Type} (P : A -> Prop) (tam : list nat) :
  forall a : list A,
  Forall P a -> (list_sum tam <= length a)%nat ->
  Forall (fun t => (0 < t)%nat) tam ->
  length (cortar a tam) = length tam /\
  Forall (fun c => c <> [] /\ Forall P c) (cortar a tam).
Proof.
  induction tam as [|t tam IH]; intros a Ha Hs Ht; simpl.
  - split; [reflexivity | constructor].
  - simpl in Hs. inversion Ht as [|? ? Ht0 Ht']; subst.
    destruct (IH (skipn t a)) as [IHl IHf];
      [now apply Forall_skipn | rewrite length_skipn; lia | assumption |].
    split; [now rewrite IHl|].
    constructor; [|exact IHf]. split.
    + intros E. apply (f_equal (@length A)) in E.
      rewrite length_firstn in E. simpl in E. lia.
    + now apply Forall_firstn.
Qed.

(** With at least 8 elements the split succeeds, into [len / 8] non-empty
    chunks. *)
Lemma split_octavos_trozos {A : Type} (P : A -> Prop) (a : list A) :
  Forall P a -> (8 <= length a)%nat ->
  exists cs, split_octavos a = Return cs /\
    length cs = (length a / 8)%nat /\
    Forall (fun c => c <> [] /\ Forall P c) cs.
Proof.
  intros Ha H8. unfold split_octavos.
  destruct (length a) as [|m] eqn:Em; [lia|]. rewrite <- Em.
  assert (Hs : (1 <= length a / 8)%nat)
    by (apply Nat.div_le_lower_bound; lia).
  unfold array_split.
  destruct (length a / 8)%nat as [|s] eqn:Es; [lia|]. rewrite <- Es.
  set (n := (length a / 8)%nat) in *.
  assert (Hn : n <> 0%nat) by lia.
  assert (Hle : (n <= length a)%nat)
    by (unfold n; apply Nat.Div0.div_le_upper_bound; lia).
  assert (Hq : (1 <= length a / n)%nat)
    by (apply Nat.div_le_lower_bound; lia).
  pose proof (Nat.div_mod_eq (length a) n) as Hdm.
  pose proof (Nat.mod_upper_bound (length a) n Hn) as Hmod.
  destruct (cortar_trozos P
              (repeat (S (length a / n)%nat) (length a mod n)%nat
               ++ repeat (length a / n)%nat (n - length a mod n)%nat) a Ha)
    as [Hl Hf].
  - rewrite list_sum_app, !list_sum_repeat. nia.
  - apply Forall_app. split; apply Forall_forall; intros t Ht;
      apply repeat_spec in Ht; lia.
  - eexists. split; [reflexivity|]. split; [|exact Hf].
    rewrite Hl, length_app, !repeat_length. lia.
Qed.

Lemma mapM_canales (cs : list (list Z)) :
  Forall (fun c => c <> [] /\ Forall es_bit c) cs ->
  mapM canal_a_entero cs = Return (map valor_binario cs).
Proof.
  intros H. apply mapM_map. rewrite Forall_forall in H.
  intros c Hc. destruct (H c Hc). now apply canal_a_entero_bits.
Qed.

(** X4: [bits_a_rgb] does not require a multiple of 8 bits.  For a bit
    sequence of at least 8 bits it forms [len / 8] chunks and returns an
    array when the shape asked for has that many entries; otherwise the
    reshape raises ValueError. *)
Theorem bits_a_rgb_longitud (bits_Rx : list Z) (dimensiones : list nat) :
  Forall es_bit bits_Rx -> (8 <= length bits_Rx)%nat ->
  (producto_forma dimensiones = (length bits_Rx / 8)%nat /\
   exists img, bits_a_rgb bits_Rx dimensiones = Return img /\
               forma img = dimensiones /\
               length (datos img) = (length bits_Rx / 8)%nat) \/
  (producto_forma dimensiones <> (length bits_Rx / 8)%nat /\
   bits_a_rgb bits_Rx dimensiones = Raise ValueError).
Proof.
  intros Hb H8.
  destruct (split_octavos_trozos es_bit bits_Rx Hb H8) as (cs & E & Lc & Hc).
  unfold bits_a_rgb. rewrite E. cbn [bind].
  rewrite mapM_canales by assumption. cbn [bind]. unfold reshape.
  rewrite length_map, Lc.
  destruct (Nat.eqb_spec (length bits_Rx / 8) (producto_forma dimensiones))
    as [Heq | Hne].
  - left. split; [now symmetry|]. cbn [bind]. eexists.
    split; [reflexivity|]. cbn [forma datos]. split; [reflexivity|].
    now rewrite !length_map.
  - right. split; [congruence | reflexivity].
Qed.

Lemma bits_a_rgb_longitud_testigo :
  (producto_forma [1]%nat = (length [0;0;0;0;0;1;0;1;1;1;1;1]%Z / 8)%nat /\
   exists img,
     bits_a_rgb [0;0;0;0;0;1;0;1;1;1;1;1]%Z [1]%nat = Return img /\
     forma img = [1]%nat /\
     length (datos img) = (length [0;0;0;0;0;1;0;1;1;1;1;1]%Z / 8)%nat) \/
  (producto_forma [1]%nat <> (length [0;0;0;0;0;1;0;1;1;1;1;1]%Z / 8)%nat /\
   bits_a_rgb [0;0;0;0;0;1;0;1;1;1;1;1]%Z [1]%nat = Raise ValueError).
Proof.
  apply (bits_a_rgb_longitud [0;0;0;0;0;1;0;1;1;1;1;1]%Z [1]%nat).
  - repeat constructor; (now left) || (now right).
  - simpl. lia.
Defined.

(** X5: a sequence of 8 to 15 bits decoded to a single entry forms one
    chunk: the entry is the number the whole sequence spells, reduced
    modulo 256 by the cast to [uint8]. *)
Theorem bits_a_rgb_un_trozo (bits_Rx : list Z) (dimensiones : list nat) :
  Forall es_bit bits_Rx -> (8 <= length bits_Rx < 16)%nat ->
  producto_forma dimensiones = 1%nat ->
  bits_a_rgb bits_Rx dimensiones
  = Return {| forma := dimensiones;
              datos := [Z.to_N (valor_binario bits_Rx mod 256)] |}.
Proof.
  intros Hb Hlen Hd. unfold bits_a_rgb, split_octavos.
  destruct (length bits_Rx) as [|m] eqn:Em; [lia|]. rewrite <- Em.
  assert (H1 : (length bits_Rx / 8 = 1)%nat).
  { symmetry. apply (Nat.div_unique _ 8 1 (length bits_Rx - 8)); lia. }
  rewrite H1. unfold array_split.
  rewrite Nat.div_1_r, Nat.mod_1_r. cbn [repeat app Nat.sub cortar].
  rewrite firstn_all. cbn [bind mapM].
  assert (Hne : bits_Rx <> []) by (intros ->; discriminate).
  rewrite (canal_a_entero_bits bits_Rx Hb Hne).
  cbn [bind]. unfold reshape. cbn [length]. rewrite Hd. reflexivity.
Qed.

Lemma bits_a_rgb_un_trozo_testigo :
  bits_a_rgb [0;0;0;0;0;1;0;1;1;1;1;1]%Z [1]%nat
  = Return {| forma := [1]%nat;
              datos := [Z.to_N
                (valor_binario [0;0;0;0;0;1;0;1;1;1;1;1]%Z mod 256)] |}.
Proof.
  apply (bits_a_rgb_un_trozo [0;0;0;0;0;1;0;1;1;1;1;1]%Z [1]%nat).
  - repeat constructor; (now left) || (now right).
  - simpl. lia.
  - reflexivity.
Defined.

End CodecLongitudes.

(** ** The BPSK modulator: value returned *)

Section ModuladorValor.

Lemma fillslice_ventana (pre mid post : list R) (lo hi : nat) (c : R) :
  lo = length pre -> hi = (lo + length mid)%nat ->
  Np.fillslice (pre ++ mid ++ post) lo hi c
  = pre ++ repeat c (length mid) ++ post.
Proof.
  intros -> ->. unfold Np.fillslice.
  rewrite !length_app.
  replace (Nat.min (length pre) (length pre + (length mid + length post)))
    with (length pre) by lia.
  replace (Nat.min (length pre + length mid)
             (length pre + (length mid + length post)) - length pre)%nat
    with (length mid) by lia.
  rewrite firstn_prefijo.
  assert (E : skipn (length pre + length mid) (pre ++ mid ++ post) = post).
  { rewrite <- length_app, (app_assoc pre mid post). apply skipn_prefijo. }
  now rewrite E.
Qed.

Variables (portadora : list R) (mpp : nat).
Hypothesis Hportadora : length portadora = mpp.

(** The loop of [modulador], both buffers. *)
Lemma modulador_bucle_completo (bits : list Z) :
  forall (k : nat) (pre_s pre_m : list R),
  length pre_s = (k * mpp)%nat -> length pre_m = (k * mpp)%nat ->
  for_each (combine (seq k (length bits)) bits)
    (modulador_paso portadora mpp)
    (pre_s ++ Np.zeros (length bits * mpp),
     pre_m ++ Np.zeros (length bits * mpp))
  = Return (pre_s ++ concat (map (bloque_BPSK portadora) bits),
            pre_m ++ concat (map (bloque_moduladora mpp) bits)).
Proof.
  induction bits as [|b bits IH]; intros k pre_s pre_m Hs Hm.
  - reflexivity.
  - cbn [length seq combine for_each map concat].
    replace (Np.zeros (S (length bits) * mpp))
      with (Np.zeros mpp ++ Np.zeros (length bits * mpp))
      by (unfold Np.zeros; now rewrite <- repeat_app).
    rewrite (modulador_paso_bloque portadora mpp Hportadora) by assumption.
    cbn [bind].
    rewrite (fillslice_ventana pre_m (Np.zeros mpp))
      by (rewrite ?zeros_length; lia).
    rewrite zeros_length. fold (bloque_moduladora mpp b).
    rewrite (app_assoc pre_s), (app_assoc pre_m).
    rewrite (IH (S k)).
    + now rewrite <- !app_assoc.
    + rewrite length_app, (bloque_BPSK_length portadora mpp Hportadora). lia.
    + rewrite length_app. unfold bloque_moduladora.
      rewrite repeat_length. lia.
Qed.

End ModuladorValor.

Section ModuladorResultados.

Lemma INR_Tc_no_nulo (n : nat) (fc : R) :
  n <> 0%nat -> fc <> 0 -> INR n * (1 / fc) <> 0.
Proof.
  intros Hn Hfc H0. apply Rmult_integral in H0. destruct H0 as [H0 | H0].
  - now apply (not_0_INR n).
  - unfold Rdiv in H0. rewrite Rmult_1_l in H0.
    now apply (Rinv_neq_0_compat fc).
Qed.

(** The value [modulador] returns. *)
Lemma modulador_valor (bits : list Z) (fc : R) (mpp : nat) :
  bits <> [] -> fc <> 0 ->
  let portadora := periodo_sen fc (Np.linspace 0 (1 / fc) mpp) in
  let senal_Tx := concat (map (bloque_BPSK portadora) bits) in
  modulador bits fc mpp
  = Return (senal_Tx, potencia_media senal_Tx (length bits) fc mpp,
            portadora, concat (map (bloque_moduladora mpp) bits)).
Proof.
  intros Hne Hfc portadora senal_Tx. unfold modulador, Py.div, enumerate.
  destruct (Req_dec_T fc 0) as [|_]; [contradiction|]. cbn [bind].
  fold portadora. rewrite linspace_length.
  assert (Hc : length portadora = mpp)
    by (unfold portadora; now rewrite periodo_sen_length, linspace_length).
  pose proof (modulador_bucle_completo portadora mpp Hc bits 0 [] []
                eq_refl eq_refl) as E.
  cbn [app] in E. rewrite E. cbn [bind].
  destruct (Req_dec_T (INR (length bits) * (1 / fc)) 0) as [H0|_].
  - exfalso. revert H0. apply INR_Tc_no_nulo; trivial.
    destruct bits; [congruence | discriminate].
  - reflexivity.
Qed.

Lemma modulador_error (bits : list Z) (fc : R) (mpp : nat) :
  fc = 0 \/ bits = [] -> modulador bits fc mpp = Raise ZeroDivisionError.
Proof.
  intros H. unfold modulador, Py.div.
  destruct (Req_dec_T fc 0) as [|Hfc]; [reflexivity|].
  destruct H as [H | ->]; [contradiction|].
  cbn [bind length enumerate]. simpl for_each. cbn [bind].
  destruct (Req_dec_T (INR 0 * (1 / fc)) 0) as [|Hn]; [reflexivity|].
  exfalso. apply Hn. simpl. ring.
Qed.

End ModuladorResultados.

(** ** The BPSK modulator: results *)

Section ModuladorTeoremas.





Lemma bloque_BPSK_binarizar (c : list R) (bits : list Z) :
  map (bloque_BPSK c) (binarizar bits) = map (bloque_BPSK c) bits.
Proof.
  unfold binarizar. rewrite map_map. apply map_ext. intros b.
  unfold bloque_BPSK. destruct (Z.eqb b 1); reflexivity.
Qed.

Lemma bloque_moduladora_binarizar (mpp : nat) (bits : list Z) :
  map (bloque_moduladora mpp) (binarizar bits)
  = map (bloque_moduladora mpp) bits.
Proof.
  unfold binarizar. rewrite map_map. apply map_ext. intros b.
  unfold bloque_moduladora. destruct (Z.eqb b 1); reflexivity.
Qed.

(** X8: [modulador] accepts any integer as a bit and treats every value
    other than 1 as a 0: the call gives the same result, value or
    exception, as on the sequence with those values replaced by 0. *)
Theorem modulador_binariza (bits : list Z) (fc : R) (mpp : nat) :
  modulador bits fc mpp = modulador (binarizar bits) fc mpp.
Proof.
  destruct (Req_dec_T fc 0) as [Hfc | Hfc].
  { rewrite !modulador_error by now left. reflexivity. }
  destruct bits as [|b bits]; [reflexivity|].
  rewrite (modulador_valor (b :: bits)) by (trivial; discriminate).
  rewrite (modulador_valor (binarizar (b :: bits)))
    by (trivial; discriminate).
  rewrite bloque_BPSK_binarizar, bloque_moduladora_binarizar.
  unfold binarizar. now rewrite length_map.
Qed.




End ModuladorTeoremas.

(** ** The sampling instants of the carriers *)

Section Muestreo.













End Muestreo.

(** ** The BPSK demodulator: any length *)

Section DemoduladorGeneral.

Lemma setslice_nth (a : list R) (lo hi : nat) (v : list R) :
  (lo + length v <= length a)%nat -> hi = (lo + length v)%nat ->
  exists a',
    Np.setslice a lo hi v = Return a' /\ length a' = length a /\
    (forall j, (j < length v)%nat -> nth (lo + j) a' 0 = nth j v 0) /\
    (forall q, (q < lo \/ lo + length v <= q)%nat -> nth q a' 0 = nth q a 0).
Proof.
  intros H ->.
  destruct (partir_ventana a lo (length v) H)
    as (pre & mid & post & -> & Lp & Lm).
  rewrite (setslice_ventana pre mid post v) by lia.
  eexists. split; [reflexivity|]. split; [rewrite !length_app; lia|]. split.
  - intros j Hj. rewrite <- Lp, app_nth2_plus, app_nth1 by lia. reflexivity.
  - intros q [Hq | Hq].
    + now rewrite !app_nth1 by lia.
    + rewrite !(app_nth2 pre) by lia. rewrite !app_nth2 by lia.
      f_equal. lia.
Qed.

Lemma getslice_nth (a : list R) (lo hi j : nat) :
  (j < hi - lo)%nat -> nth j (Np.getslice a lo hi) 0 = nth (lo + j) a 0.
Proof.
  intros Hj. unfold Np.getslice. rewrite nth_firstn.
  apply Nat.ltb_lt in Hj. rewrite Hj. apply nth_skipn.
Qed.

Variables (senal_Rx portadora : list R) (mpp : nat).
Hypothesis Hportadora : length portadora = mpp.

Lemma demodulador_paso_general (i : nat) (b : list Z) (d : list R) :
  ((i + 1) * mpp <= length senal_Rx)%nat -> length d = length senal_Rx ->
  (i < length b)%nat ->
  exists b' d',
    demodulador_paso senal_Rx portadora mpp i (b, d) = Return (b', d') /\
    length b' = length b /\ length d' = length d /\
    nth i b' 0%Z = decision (energia senal_Rx portadora mpp i) /\
    (forall j, j <> i -> nth j b' 0%Z = nth j b 0%Z) /\
    (forall j, (j < mpp)%nat ->
       nth (i * mpp + j) d' 0
       = nth (i * mpp + j) senal_Rx 0 * nth j portadora 0) /\
    (forall q, (q < i * mpp \/ (i + 1) * mpp <= q)%nat ->
       nth q d' 0 = nth q d 0).
Proof.
  intros Hi Hd Hb. unfold demodulador_paso.
  pose proof (getslice_length senal_Rx i mpp Hi) as Hs.
  rewrite broadcast2_iguales by congruence. cbn [bind].
  fold (energia senal_Rx portadora mpp i).
  set (producto := Np.map2 Rmult
         (Np.getslice senal_Rx (i * mpp) ((i + 1) * mpp)) portadora).
  assert (Lp : length producto = mpp)
    by (unfold producto; rewrite map2_length; congruence).
  destruct (setslice_nth d (i * mpp) ((i + 1) * mpp) producto)
    as (d' & -> & Ld' & Hin & Hout); [lia | lia |].
  cbn [bind].
  destruct (setitem_ok b i (decision (energia senal_Rx portadora mpp i))
              0%Z Hb) as (b' & -> & Lb' & Hn & Ho).
  cbn [bind]. exists b', d'.
  split; [reflexivity|]. split; [exact Lb'|]. split; [exact Ld'|].
  split; [exact Hn|]. split; [exact Ho|]. split.
  - intros j Hj. rewrite Hin by lia. unfold producto.
    rewrite map2_nth by (congruence || lia).
    rewrite getslice_nth by lia. reflexivity.
  - intros q Hq. apply Hout. lia.
Qed.

(** The loop over the symbol intervals [k, k + n), with both buffers. *)
Lemma demodulador_bucle_general (n : nat) :
  forall (k : nat) (b : list Z) (d : list R),
  ((k + n) * mpp <= length senal_Rx)%nat -> length d = length senal_Rx ->
  (k + n <= length b)%nat ->
  exists b' d',
    for_each (seq k n) (demodulador_paso senal_Rx portadora mpp) (b, d)
      = Return (b', d') /\
    length b' = length b /\ length d' = length d /\
    (forall i, (i < k \/ k + n <= i)%nat -> nth i b' 0%Z = nth i b 0%Z) /\
    (forall i, (k <= i < k + n)%nat ->
       nth i b' 0%Z = decision (energia senal_Rx portadora mpp i)) /\
    (forall i j, (k <= i < k + n)%nat -> (j < mpp)%nat ->
       nth (i * mpp + j) d' 0
       = nth (i * mpp + j) senal_Rx 0 * nth j portadora 0) /\
    (forall q, (q < k * mpp \/ (k + n) * mpp <= q)%nat ->
       nth q d' 0 = nth q d 0).
Proof.
  induction n as [|n IH]; intros k b d HM Hd Hb.
  - exists b, d. simpl. repeat split; trivial; intros; lia.
  - cbn [seq for_each].
    destruct (demodulador_paso_general k b d)
      as (b1 & d1 & -> & Lb1 & Ld1 & Hk & Ho & Hdin & Hdout);
      try lia; try nia.
    cbn [bind].
    destruct (IH (S k) b1 d1)
      as (b' & d' & -> & Lb' & Ld' & Hbo & Hbi & Hdi & Hdo);
      try lia; try nia.
    exists b', d'. split; [reflexivity|].
    split; [congruence|]. split; [congruence|]. split; [|split; [|split]].
    + intros i Hi. rewrite Hbo by lia. apply Ho. lia.
    + intros i Hi. destruct (Nat.eq_dec i k) as [->|Hne].
      * rewrite Hbo by lia. exact Hk.
      * apply Hbi. lia.
    + intros i j Hi Hj. destruct (Nat.eq_dec i k) as [->|Hne].
      * rewrite Hdo by nia. now apply Hdin.
      * apply Hdi; lia.
    + intros q Hq. rewrite Hdo by nia. apply Hdout. nia.
Qed.

End DemoduladorGeneral.

(** ** The BPSK demodulator: results *)

Section DemoduladorTeoremas.

Lemma decision_bit (Ep : R) : es_bit (decision Ep).
Proof. unfold decision. destruct (Rlt_dec 0 Ep); [now right | now left]. Qed.

(** What [demodulador] returns on a waveform of any length. *)
Lemma demodulador_valor_general (senal_Rx portadora : list R) (mpp : nat) :
  mpp <> 0%nat -> length portadora = mpp ->
  exists bits_Rx senal_demodulada,
    demodulador senal_Rx portadora mpp = Return (bits_Rx, senal_demodulada) /\
    length bits_Rx = (length senal_Rx / mpp)%nat /\
    (forall i, (i < length senal_Rx / mpp)%nat ->
       nth i bits_Rx 0%Z = decision (energia senal_Rx portadora mpp i)) /\
    length senal_demodulada = length senal_Rx /\
    (forall i j, (i < length senal_Rx / mpp)%nat -> (j < mpp)%nat ->
       nth (i * mpp + j) senal_demodulada 0
       = nth (i * mpp + j) senal_Rx 0 * nth j portadora 0) /\
    (forall q, (length senal_Rx / mpp * mpp <= q)%nat ->
       nth q senal_demodulada 0 = 0).
Proof.
  intros Hmpp Hc. unfold demodulador.
  rewrite int_div_ok by assumption. cbn [bind].
  set (N := (length senal_Rx / mpp)%nat).
  assert (HN : (N * mpp <= length senal_Rx)%nat)
    by (unfold N; rewrite Nat.mul_comm; now apply Nat.Div0.mul_div_le).
  destruct (demodulador_bucle_general senal_Rx portadora mpp Hc N 0
              (repeat 0%Z N) (Np.zeros (length senal_Rx)))
    as (b' & d' & E & Lb & Ld & _ & Hb & Hd & Hz).
  - simpl. exact HN.
  - apply zeros_length.
  - rewrite repeat_length. simpl. lia.
  - exists b', d'. split; [exact E|].
    rewrite repeat_length in Lb. rewrite zeros_length in Ld.
    split; [exact Lb|]. split; [|split; [exact Ld|split]].
    + intros i Hi. apply Hb. lia.
    + intros i j Hi Hj. apply Hd; lia.
    + intros q Hq. rewrite Hz by (simpl; lia).
      unfold Np.zeros. apply nth_repeat.
Qed.

(** X11: for [mpp >= 1] and a carrier of [mpp] samples [demodulador]
    returns on a waveform of any length [M]: it decides
    [M // mpp] bits, each 0 or 1, by the sign of the inner product of a
    whole segment with the carrier; the product signal has [M] samples,
    the products over the whole segments and zeros over the samples left
    after the last whole segment. *)
Theorem demodulador_general (senal_Rx portadora : list R) (mpp : nat) :
  mpp <> 0%nat -> length portadora = mpp ->
  exists bits_Rx senal_demodulada,
    demodulador senal_Rx portadora mpp = Return (bits_Rx, senal_demodulada) /\
    length bits_Rx = (length senal_Rx / mpp)%nat /\
    Forall es_bit bits_Rx /\
    (forall i, (i < length senal_Rx / mpp)%nat ->
       nth i bits_Rx 0%Z = decision (energia senal_Rx portadora mpp i)) /\
    length senal_demodulada = length senal_Rx /\
    (forall i j, (i < length senal_Rx / mpp)%nat -> (j < mpp)%nat ->
       nth (i * mpp + j) senal_demodulada 0
       = nth (i * mpp + j) senal_Rx 0 * nth j portadora 0) /\
    (forall q, (length senal_Rx / mpp * mpp <= q)%nat ->
       nth q senal_demodulada 0 = 0).
Proof.
  intros Hmpp Hc.
  destruct (demodulador_valor_general senal_Rx portadora mpp Hmpp Hc)
    as (b & d & E & Lb & Hb & Ld & Hd & Hz).
  exists b, d. repeat split; trivial.
  apply Forall_nth. intros i d0 Hi.
  rewrite (nth_indep _ d0 0%Z) by assumption.
  rewrite Hb by lia. apply decision_bit.
Qed.

Lemma demodulador_general_testigo :
  exists bits_Rx senal_demodulada,
    demodulador [0; 1; 0; -1; 5] [0; 1] 2
      = Return (bits_Rx, senal_demodulada) /\
    length bits_Rx = (5 / 2)%nat /\
    Forall es_bit bits_Rx /\
    (forall i, (i < 5 / 2)%nat ->
       nth i bits_Rx 0%Z = decision (energia [0; 1; 0; -1; 5] [0; 1] 2 i)) /\
    length senal_demodulada = 5%nat /\
    (forall i j, (i < 5 / 2)%nat -> (j < 2)%nat ->
       nth (i * 2 + j) senal_demodulada 0
       = nth (i * 2 + j) [0; 1; 0; -1; 5] 0 * nth j [0; 1] 0) /\
    (forall q, (5 / 2 * 2 <= q)%nat -> nth q senal_demodulada 0 = 0).
Proof.
  apply (demodulador_general [0; 1; 0; -1; 5] [0; 1] 2).
  - discriminate.
  - reflexivity.
Defined.

Lemma getslice_app (s t : list R) (lo hi : nat) :
  (hi <= length s)%nat ->
  Np.getslice (s ++ t) lo hi = Np.getslice s lo hi.
Proof.
  intros H. unfold Np.getslice.
  destruct (Nat.le_gt_cases hi lo) as [Hle | Hgt].
  - replace (hi - lo)%nat with 0%nat by lia. reflexivity.
  - rewrite skipn_app, firstn_app.
    replace (lo - length s)%nat with 0%nat by lia.
    rewrite length_skipn.
    replace (hi - lo - (length s - lo))%nat with 0%nat by lia.
    cbn [skipn firstn]. now rewrite app_nil_r.
Qed.

(** X12: samples received after the last whole symbol interval do not
    change the bits: a waveform of [N * mpp] samples followed by fewer
    than [mpp] further samples is demodulated to the same bits. *)
Theorem demodulador_resto (s t portadora : list R) (mpp N : nat) :
  mpp <> 0%nat -> length portadora = mpp ->
  length s = (N * mpp)%nat -> (length t < mpp)%nat ->
  exists bits_Rx d d',
    demodulador s portadora mpp = Return (bits_Rx, d) /\
    demodulador (s ++ t) portadora mpp = Return (bits_Rx, d').
Proof.
  intros Hmpp Hc Hs Ht.
  destruct (demodulador_valor_general s portadora mpp Hmpp Hc)
    as (b & d & E & Lb & Hb & _).
  destruct (demodulador_valor_general (s ++ t) portadora mpp Hmpp Hc)
    as (b' & d' & E' & Lb' & Hb' & _).
  assert (HN : (length s / mpp = N)%nat) by (rewrite Hs; now apply Nat.div_mul).
  assert (HN' : (length (s ++ t) / mpp = N)%nat).
  { rewrite length_app, Hs, Nat.add_comm, Nat.div_add by assumption.
    rewrite Nat.div_small by assumption. reflexivity. }
  rewrite HN in *. rewrite HN' in *.
  exists b, d, d'. split; [exact E|]. rewrite E'. do 2 f_equal.
  apply (nth_ext _ _ 0%Z 0%Z); [congruence|].
  intros i Hi. rewrite Lb' in Hi. rewrite Hb, Hb' by assumption.
  unfold energia. rewrite getslice_app by nia. reflexivity.
Qed.

Lemma demodulador_resto_testigo :
  exists bits_Rx d d',
    demodulador [0; 1; 0; -1] [0; 1] 2 = Return (bits_Rx, d) /\
    demodulador ([0; 1; 0; -1] ++ [5]) [0; 1] 2 = Return (bits_Rx, d').
Proof.
  apply (demodulador_resto [0; 1; 0; -1] [5] [0; 1] 2 2).
  - discriminate.
  - reflexivity.
  - reflexivity.
  - simpl. lia.
Defined.

(** X13: with a carrier whose length is neither [mpp] nor 1 the call
    raises ValueError as soon as there is one whole symbol interval;
    with fewer than [mpp] samples the loop does not run and the call
    returns no bits, whatever the carrier. *)
Theorem demodulador_portadora_distinta (senal_Rx portadora : list R)
  (mpp : nat) :
  mpp <> 0%nat -> length portadora <> mpp -> length portadora <> 1%nat ->
  demodulador senal_Rx portadora mpp
  = if Nat.ltb (length senal_Rx) mpp
    then Return ([], Np.zeros (length senal_Rx))
    else Raise ValueError.
Proof.
  intros Hmpp Hc Hc1. unfold demodulador.
  rewrite int_div_ok by assumption. cbn [bind].
  destruct (Nat.ltb_spec (length senal_Rx) mpp) as [Hlt | Hge].
  - rewrite Nat.div_small by assumption. reflexivity.
  - assert (HN : (1 <= length senal_Rx / mpp)%nat)
      by (apply Nat.div_le_lower_bound; lia).
    destruct (length senal_Rx / mpp)%nat as [|n]; [lia|].
    cbn [seq for_each]. unfold demodulador_paso at 1.
    pose proof (getslice_length senal_Rx 0 mpp ltac:(lia)) as Hs.
    unfold Np.broadcast2.
    destruct (Nat.eqb_spec
                (length (Np.getslice senal_Rx (0 * mpp) ((0 + 1) * mpp)))
                (length portadora)) as [Heq|_]; [congruence|].
    destruct (Np.getslice senal_Rx (0 * mpp) ((0 + 1) * mpp))
      as [|x [|x' rest]] eqn:Eg.
    + simpl in Hs. lia.
    + cbn [bind]. simpl in Hs. subst mpp.
      unfold Np.setslice. rewrite zeros_length, length_map.
      replace (Nat.min ((0 + 1) * 1) (length senal_Rx)
               - Nat.min (0 * 1) (length senal_Rx))%nat with 1%nat by lia.
      destruct (Nat.eqb_spec (length portadora) 1) as [|_]; [congruence|].
      reflexivity.
    + destruct portadora as [|y [|y' c']]; try reflexivity.
      simpl in Hc1. congruence.
Qed.

Lemma demodulador_portadora_distinta_testigo :
  demodulador [0; 1; 0; -1] [0; 1; 0] 2
  = if Nat.ltb (length [0; 1; 0; -1]) 2
    then Return ([], Np.zeros (length [0; 1; 0; -1]))
    else Raise ValueError.
Proof.
  apply (demodulador_portadora_distinta [0; 1; 0; -1] [0; 1; 0] 2);
    discriminate.
Defined.

End DemoduladorTeoremas.

(** ** Gain and noise at the demodulator *)

Section Ruido.

Lemma skipn_map2 (f : R -> R -> R) (n : nat) :
  forall a b, skipn n (Np.map2 f a b) = Np.map2 f (skipn n a) (skipn n b).
Proof.
  induction n as [|n IH]; intros a b; [reflexivity|].
  destruct a as [|x a]; [reflexivity|].
  destruct b as [|y b].
  - simpl. now destruct (skipn n a).
  - simpl. apply IH.
Qed.

Lemma firstn_map2 (f : R -> R -> R) (n : nat) :
  forall a b, firstn n (Np.map2 f a b) = Np.map2 f (firstn n a) (firstn n b).
Proof.
  induction n as [|n IH]; intros a b; [reflexivity|].
  destruct a as [|x a]; [reflexivity|].
  destruct b as [|y b]; [reflexivity|].
  simpl. now rewrite IH.
Qed.

Lemma suma_productos_suma (x y c : list R) :
  length x = length c -> length y = length c ->
  Np.sum (Np.map2 Rmult (Np.map2 Rplus x y) c)
  = Np.sum (Np.map2 Rmult x c) + Np.sum (Np.map2 Rmult y c).
Proof.
  revert y c. induction x as [|u x IH]; intros [|v y] [|w c] Hx Hy;
    simpl in Hx, Hy; try discriminate; [simpl; ring|].
  change (Np.sum (Np.map2 Rmult (Np.map2 Rplus (u :: x) (v :: y)) (w :: c)))
    with ((u + v) * w + Np.sum (Np.map2 Rmult (Np.map2 Rplus x y) c)).
  change (Np.sum (Np.map2 Rmult (u :: x) (w :: c)))
    with (u * w + Np.sum (Np.map2 Rmult x c)).
  change (Np.sum (Np.map2 Rmult (v :: y) (w :: c)))
    with (v * w + Np.sum (Np.map2 Rmult y c)).
  rewrite IH by congruence. ring.
Qed.

(** The inner products of a sum of two waveforms add. *)
Lemma energia_suma (s r c : list R) (mpp i : nat) :
  length c = mpp -> ((i + 1) * mpp <= length s)%nat ->
  ((i + 1) * mpp <= length r)%nat ->
  energia (Np.map2 Rplus s r) c mpp i = energia s c mpp i + energia r c mpp i.
Proof.
  intros Hc Hs Hr. unfold energia, Np.getslice.
  rewrite skipn_map2, firstn_map2.
  apply suma_productos_suma;
    rewrite length_firstn, length_skipn; lia.
Qed.

Lemma canal_ruidoso_suma (senal_Tx : list R) (Pm SNR : R) (g : Np.rng) :
  fst (canal_ruidoso senal_Tx Pm SNR g)
  = Np.map2 Rplus senal_Tx
      (fst (Np.random_normal 0 (sqrt (potencia_ruido Pm SNR))
              (length senal_Tx) g)).
Proof. reflexivity. Qed.

(** X15: the BPSK link tolerates noise.  For a non-empty bit sequence,
    [fc > 0] and [mpp >= 4], whenever in every symbol interval the inner
    product of the channel's noise with the carrier is smaller in
    absolute value than the energy of the carrier, demodulating the
    channel's output with the carrier returns the original bits. *)
Theorem BPSK_tolera_ruido (bits : list Z) (fc : R) (mpp : nat) :
  Forall es_bit bits -> bits <> [] -> 0 < fc -> (4 <= mpp)%nat ->
  exists senal_Tx P portadora moduladora,
    modulador bits fc mpp = Return (senal_Tx, P, portadora, moduladora) /\
    forall (SNR : R) (g : Np.rng),
      (forall i, (i < length bits)%nat ->
         Rabs (energia
                 (fst (Np.random_normal 0 (sqrt (potencia_ruido P SNR))
                         (length senal_Tx) g)) portadora mpp i)
         < Np.sum (Np.map2 Rmult portadora portadora)) ->
      exists d,
        demodulador (fst (canal_ruidoso senal_Tx P SNR g)) portadora mpp
        = Return (bits, d).
Proof.
  intros Hbits Hne Hfc Hmpp.
  rewrite modulador_valor by (trivial; lra).
  set (c := periodo_sen fc (Np.linspace 0 (1 / fc) mpp)).
  set (s := concat (map (bloque_BPSK c) bits)).
  assert (Hc : length c = mpp)
    by (unfold c; now rewrite periodo_sen_length, linspace_length).
  assert (Ls : length s = (length bits * mpp)%nat).
  { unfold s. rewrite (concat_ancho_length mpp)
      by now apply bloques_BPSK_ancho.
    now rewrite length_map. }
  eexists _, _, _, _. split; [reflexivity|].
  intros SNR g Hruido. rewrite canal_ruidoso_suma.
  set (r := fst (Np.random_normal 0
                   (sqrt (potencia_ruido
                            (potencia_media s (length bits) fc mpp) SNR))
                   (length s) g)) in *.
  assert (Lr : length r = (length bits * mpp)%nat)
    by (unfold r; now rewrite random_normal_length).
  destruct (demodulador_ok (Np.map2 Rplus s r) c mpp Hc (length bits))
    as (b & d & E & Lb & Hb).
  { lia. }
  { rewrite map2_length by congruence. exact Ls. }
  exists d. rewrite E. do 2 f_equal.
  apply (nth_ext _ _ 0%Z 0%Z Lb).
  intros i Hi. rewrite Lb in Hi. rewrite (Hb i Hi).
  rewrite energia_suma by (trivial; nia).
  unfold s at 1. rewrite (energia_bloque c mpp Hc) by assumption.
  specialize (Hruido i Hi). apply Rabs_def2 in Hruido.
  rewrite Forall_forall in Hbits.
  destruct (Hbits (nth i bits 0%Z) (nth_In _ _ Hi)) as [-> | ->];
    unfold bloque_BPSK; simpl Z.eqb; cbv iota.
  - rewrite suma_productos_opuesto. apply decision_cero. lra.
  - apply decision_uno. lra.
Qed.

Lemma BPSK_tolera_ruido_testigo :
  exists senal_Tx P portadora moduladora,
    modulador [1; 0; 1; 1]%Z 5000 20
      = Return (senal_Tx, P, portadora, moduladora) /\
    forall (SNR : R) (g : Np.rng),
      (forall i, (i < 4)%nat ->
         Rabs (energia
                 (fst (Np.random_normal 0 (sqrt (potencia_ruido P SNR))
                         (length senal_Tx) g)) portadora 20 i)
         < Np.sum (Np.map2 Rmult portadora portadora)) ->
      exists d,
        demodulador (fst (canal_ruidoso senal_Tx P SNR g)) portadora 20
        = Return ([1; 0; 1; 1]%Z, d).
Proof.
  apply (BPSK_tolera_ruido [1; 0; 1; 1]%Z 5000 20).
  - repeat constructor; (now left) || (now right).
  - discriminate.
  - lra.
  - lia.
Defined.

End Ruido.

(** ** The channel: results *)

Section CanalTeoremas.

(** X16: a waveform of average power 0 is not rejected: for an SNR
    between -3000 dB and 3000 dB the channel returns it unchanged,
    whatever the variates of the generator, which is read all the same. *)
Theorem canal_potencia_nula (senal_Tx : list R) (SNR : R) (g : Np.rng) :
  -3000 <= SNR <= 3000 ->
  exists g',
    canal_ruidoso_float senal_Tx 0 SNR g = Return (Finito senal_Tx, g') /\
    Np.pos g' = (Np.pos g + length senal_Tx)%nat.
Proof.
  intros HS.
  assert (E0 : potencia_ruido 0 SNR = 0)
    by (unfold potencia_ruido, Rdiv; ring).
  destruct (canal_ruidoso_muestras senal_Tx 0 SNR g) as (HL & HN & HP & _).
  rewrite canal_ruidoso_float_finito.
  - exists (snd (canal_ruidoso senal_Tx 0 SNR g)). split; [|exact HP].
    do 3 f_equal. apply (nth_ext _ _ 0 0 HL).
    intros j Hj. rewrite HL in Hj. rewrite (HN j Hj), E0, sqrt_0. ring.
  - now apply pow10_rango.
  - rewrite E0. split; [lra | apply IZR_lt; reflexivity].
Qed.

Lemma canal_potencia_nula_testigo :
  exists g',
    canal_ruidoso_float [1; -1] 0 (-5) generador_rampa
    = Return (Finito [1; -1], g') /\
    Np.pos g' = (Np.pos generador_rampa + 2)%nat.
Proof. apply (canal_potencia_nula [1; -1] (-5) generador_rampa). lra. Defined.

End CanalTeoremas.

(** ** Bit errors: results *)

Section ErroresTeoremas.

Lemma hamming_sim (a b : list Z) : hamming a b = hamming b a.
Proof.
  revert b. induction a as [|x a IH]; intros [|y b]; simpl; trivial.
  now rewrite IH, Z.eqb_sym.
Qed.

(** Broadcasting a single element along an array. *)
Lemma map2_repeat {A : Type} (f : A -> A -> A) (a : list A) (y : A) :
  Np.map2 f a (repeat y (length a)) = map (fun x => f x y) a.
Proof. induction a as [|x a IH]; simpl; [|rewrite IH]; reflexivity. Qed.

(** X18: the error count raises, with ValueError, exactly when the two
    sequences differ in length and neither has length 1, and it raises
    nothing else; a received sequence of length 1 is compared with every
    element of the other, which for bits counts the elements that differ
    from it. *)
Theorem errores_longitudes (tx rx : list Z) :
  (errores_16QAM tx rx = Raise ValueError <->
   length tx <> length rx /\ length tx <> 1%nat /\ length rx <> 1%nat) /\
  (forall e, errores_16QAM tx rx = Raise e -> e = ValueError) /\
  (forall b, errores_16QAM tx [b]
             = errores_16QAM tx (repeat b (length tx))) /\
  (forall b, Forall es_bit tx -> es_bit b ->
     errores_16QAM tx [b] = Return (hamming tx (repeat b (length tx)))).
Proof.
  assert (Hrep : forall b, errores_16QAM tx [b]
                           = errores_16QAM tx (repeat b (length tx))).
  { intros b. unfold errores_16QAM at 2.
    rewrite broadcast2_iguales by now rewrite repeat_length.
    rewrite map2_repeat. unfold errores_16QAM, Np.broadcast2.
    destruct tx as [|x [|x' tx]]; reflexivity. }
  split; [|split; [|split]].
  - unfold errores_16QAM, Np.broadcast2.
    destruct (Nat.eqb_spec (length tx) (length rx)) as [Heq | Hne].
    + cbn [bind]. split; [discriminate | tauto].
    + destruct tx as [|x [|x' tx]], rx as [|y [|y' rx]]; cbn [bind];
        simpl length in *; split; intros H;
        try discriminate H; try reflexivity; try lia;
        try (repeat split; (assumption || discriminate)).
  - intros e. unfold errores_16QAM, Np.broadcast2.
    destruct (Nat.eqb (length tx) (length rx)); [discriminate|].
    destruct tx as [|x [|x' tx]], rx as [|y [|y' rx]]; cbn [bind];
      try discriminate; intros H; inversion H; reflexivity.
  - exact Hrep.
  - intros b Ht Hb. rewrite Hrep. apply errores_hamming.
    + exact Ht.
    + apply Forall_forall. intros y Hy. apply repeat_spec in Hy. now subst.
    + now rewrite repeat_length.
Qed.

(** X19: for two non-empty bit sequences of equal length the evaluation
    does not depend on which one is the transmitted one, and the rate
    lies between 0 and 1. *)
Theorem BER_simetrica_acotada (tx rx : list Z) :
  Forall es_bit tx -> Forall es_bit rx -> length tx = length rx ->
  tx <> [] ->
  exists e ber,
    BER_16QAM tx rx = Return (e, ber) /\
    BER_16QAM rx tx = Return (e, ber) /\
    0 <= ber <= 1.
Proof.
  intros Ht Hr Hl Hne.
  assert (Hlen : 0 < INR (length tx)).
  { apply lt_0_INR. destruct tx; [congruence | simpl; lia]. }
  exists (hamming tx rx), (IZR (hamming tx rx) / INR (length tx)).
  unfold BER_16QAM.
  rewrite (errores_hamming tx rx), (errores_hamming rx tx) by auto.
  cbn [bind]. unfold Py.div. rewrite <- Hl.
  destruct (Req_dec_T (INR (length tx)) 0) as [H0|_]; [lra|].
  cbn [bind]. split; [reflexivity|].
  split; [now rewrite (hamming_sim rx tx)|].
  pose proof (hamming_cotas tx rx) as [H1 H2].
  apply IZR_le in H1, H2. rewrite <- INR_IZR_INZ in H2.
  split.
  - apply Rmult_le_pos; [exact H1|]. left. now apply Rinv_0_lt_compat.
  - apply (Rmult_le_reg_r (INR (length tx))); [exact Hlen|].
    unfold Rdiv. rewrite Rmult_assoc, Rinv_l by lra. lra.
Qed.

Lemma BER_simetrica_acotada_testigo :
  exists e ber,
    BER_16QAM [1; 0; 1; 1]%Z [1; 1; 1; 0]%Z = Return (e, ber) /\
    BER_16QAM [1; 1; 1; 0]%Z [1; 0; 1; 1]%Z = Return (e, ber) /\
    0 <= ber <= 1.
Proof.
  apply (BER_simetrica_acotada [1; 0; 1; 1]%Z [1; 1; 1; 0]%Z).
  - repeat constructor; (now left) || (now right).
  - repeat constructor; (now left) || (now right).
  - reflexivity.
  - discriminate.
Defined.

End ErroresTeoremas.

(** ** The 16-QAM functions: further results *)

Section QAMTeoremas.

Lemma condicion_valor (bits : list Z) (i : nat) (r : rama) :
  (i + 2 < length bits)%nat ->
  condicion bits i r
  = Return (if negb (Z.eqb (nth i bits 0%Z) (lit0 r)) then false
            else if negb (Z.eqb (nth (i + 1) bits 0%Z) (lit1 r)) then false
            else if negb (Z.eqb (nth (i + 2) bits 0%Z) (lit2 r)) then false
            else Z.eqb (nth (i + 2) bits 0%Z) (lit3 r)).
Proof.
  intros H. unfold condicion.
  rewrite !(getitem_ok bits _ 0%Z) by lia. cbn [bind].
  destruct (negb _); [reflexivity|].
  destruct (negb _); [reflexivity|].
  destruct (negb _); reflexivity.
Qed.

(** X20: at any symbol that has its first three bits, the chain selects
    the cosine factor by the first two bits and the sine factor by the
    third bit alone: the sine factor is 3 or -1, never 1 or -3, and the
    fourth bit is not read. *)
Theorem elegir_bits (bits : list Z) (i : nat) :
  (i + 2 < length bits)%nat ->
  es_bit (nth i bits 0%Z) -> es_bit (nth (i + 1) bits 0%Z) ->
  es_bit (nth (i + 2) bits 0%Z) ->
  exists r,
    elegir bits i ramas = Return r /\
    amp_cos r = factor_cos (nth i bits 0%Z) (nth (i + 1) bits 0%Z) /\
    amp_sen r = factor_sen (nth (i + 2) bits 0%Z).
Proof.
  intros Hi H0 H1 H2. unfold ramas. cbn [elegir].
  rewrite !condicion_valor by assumption.
  destruct H0 as [-> | ->], H1 as [-> | ->], H2 as [-> | ->];
    cbn; eexists; repeat split.
Qed.

Lemma elegir_bits_testigo :
  exists r,
    elegir [1; 0; 1; 1]%Z 0 ramas = Return r /\
    amp_cos r = factor_cos (nth 0 [1; 0; 1; 1]%Z 0%Z)
                  (nth (0 + 1) [1; 0; 1; 1]%Z 0%Z) /\
    amp_sen r = factor_sen (nth (0 + 2) [1; 0; 1; 1]%Z 0%Z).
Proof.
  apply (elegir_bits [1; 0; 1; 1]%Z 0).
  - simpl. lia.
  - now right.
  - now left.
  - now right.
Defined.

Lemma modulador_16QAM_primer_paso (G : entorno) (bits : list Z) (fc : R)
  (mpp : nat) (e : exn) :
  fc <> 0 -> bits <> [] ->
  modulador_16QAM_paso bits mpp
    (periodo_cos fc (Np.linspace 0 (1 / fc) mpp))
    (periodo_sen fc (Np.linspace 0 (1 / fc) mpp)) 0
    (Np.zeros (length bits * mpp), G) = Raise e ->
  modulador_16QAM G bits fc mpp = Raise e.
Proof.
  intros Hfc Hne H. unfold modulador_16QAM, Py.div.
  destruct (Req_dec_T fc 0) as [|_]; [contradiction|]. cbn [bind].
  destruct (range_paso_primero (length bits)) as (l & ->).
  { destruct bits; [congruence | discriminate]. }
  cbn [for_each]. rewrite linspace_length, H. reflexivity.
Qed.

Lemma elegir_corto (bits : list Z) :
  Forall es_bit bits -> (1 <= length bits <= 2)%nat ->
  elegir bits 0 ramas = Raise IndexError.
Proof.
  intros Hb Hl.
  destruct bits as [|b0 [|b1 [|b2 bits]]]; simpl in Hl; try lia.
  - inversion Hb as [|? ? H0 _]; subst.
    destruct H0 as [-> | ->]; reflexivity.
  - inversion Hb as [|? ? H0 Hb']; subst.
    inversion Hb' as [|? ? H1 _]; subst.
    destruct H0 as [-> | ->], H1 as [-> | ->]; reflexivity.
Qed.

Lemma asignar_senal_Tx_tres (mpp : nat) (pc ps : list R) (r : rama) :
  length pc = mpp -> length ps = mpp -> (2 <= mpp)%nat ->
  asignar_senal_Tx (Np.zeros (3 * mpp)) 0 mpp pc ps r = Raise ValueError.
Proof.
  intros Hpc Hps Hmpp.
  set (vc := Np.escala pc (IZR (amp_cos r))).
  set (vs := Np.escala ps (IZR (amp_sen r))).
  assert (Hvc : length vc = mpp) by (unfold vc; now rewrite escala_length).
  assert (Hvs : length vs = mpp) by (unfold vs; now rewrite escala_length).
  replace (Np.zeros (3 * mpp))
    with ([] ++ Np.zeros mpp ++ Np.zeros mpp ++ Np.zeros mpp).
  2:{ unfold Np.zeros. rewrite <- !repeat_app. simpl. f_equal. lia. }
  unfold asignar_senal_Tx. fold vc vs.
  rewrite (setslice_ventana [] (Np.zeros mpp))
    by (rewrite ?zeros_length; simpl; lia).
  cbn [bind]. rewrite (app_assoc [] vc).
  rewrite (setslice_ventana ([] ++ vc) (Np.zeros mpp))
    by (rewrite ?length_app, ?zeros_length; simpl; lia).
  cbn [bind]. rewrite (app_assoc ([] ++ vc) vc).
  rewrite <- (app_nil_r (Np.zeros mpp)).
  rewrite (setslice_ventana (([] ++ vc) ++ vc) (Np.zeros mpp) [])
    by (rewrite ?length_app, ?zeros_length; simpl; lia).
  cbn [bind]. unfold Np.setslice.
  rewrite !length_app, Hvc, Hvs. cbn [length].
  replace (Nat.min ((0 + 4) * mpp) (0 + mpp + mpp + (mpp + 0))
           - Nat.min ((0 + 3) * mpp) (0 + mpp + mpp + (mpp + 0)))%nat
    with 0%nat by lia.
  destruct (Nat.eqb_spec mpp 0) as [|_]; [lia|].
  destruct (Nat.eqb_spec mpp 1) as [|_]; [lia|].
  reflexivity.
Qed.

(** X21: on one to three bits, with [fc <> 0] and [mpp >= 2], the 16-QAM
    modulator fails before it reaches [moduladora], whatever the module
    binds: with one or two bits the chain reads past the end of the
    sequence (IndexError); with three bits the arm is chosen but its
    fourth slice of [senal_Tx] is empty and the assignment of a whole
    period to it raises ValueError. *)
Theorem modulador_16QAM_corto (G : entorno) (bits : list Z) (fc : R)
  (mpp : nat) :
  fc <> 0 -> Forall es_bit bits -> (2 <= mpp)%nat ->
  (1 <= length bits <= 3)%nat ->
  modulador_16QAM G bits fc mpp
  = Raise (if Nat.ltb (length bits) 3 then IndexError else ValueError).
Proof.
  intros Hfc Hb Hmpp Hl.
  assert (Hne : bits <> []) by (intros ->; simpl in Hl; lia).
  apply modulador_16QAM_primer_paso; trivial.
  unfold modulador_16QAM_paso.
  destruct (Nat.ltb_spec (length bits) 3) as [Hlt | Hge].
  - rewrite elegir_corto by (trivial; lia). reflexivity.
  - assert (H3 : length bits = 3%nat) by lia.
    destruct (elegir_ok bits 0 ramas ltac:(lia)) as (r & -> & _).
    cbn [bind]. rewrite H3, asignar_senal_Tx_tres; trivial.
    + now rewrite periodo_cos_length, linspace_length.
    + now rewrite periodo_sen_length, linspace_length.
Qed.

Lemma modulador_16QAM_corto_testigo :
  modulador_16QAM globales_P4 [1; 0; 1]%Z 5000 20
  = Raise (if Nat.ltb (length [1; 0; 1]%Z) 3 then IndexError else ValueError).
Proof.
  apply (modulador_16QAM_corto globales_P4 [1; 0; 1]%Z 5000 20).
  - lra.
  - repeat constructor; (now left) || (now right).
  - lia.
  - simpl. lia.
Defined.

(** X22: if the module bound [N] to an integer [n] not larger than the
    number of whole symbol intervals, the 16-QAM demodulator would
    return four times as many entries as there are intervals: the first
    [n] decided by the sign of the inner product with the carrier, all
    the others left at 0. *)
Theorem demodulador_16QAM_con_N (G : entorno) (n : Z)
  (senal_Rx portadora_16QAM : list R) (mpp : nat) :
  buscar_opt G "N" = Some (VEntero n) -> mpp <> 0%nat ->
  length portadora_16QAM = mpp ->
  (Z.to_nat n <= length senal_Rx / mpp)%nat ->
  exists bits_Rx senal_demodulada,
    demodulador_16QAM G senal_Rx portadora_16QAM mpp
      = Return (bits_Rx, senal_demodulada) /\
    length bits_Rx = (length senal_Rx / mpp * 4)%nat /\
    (forall i, (i < Z.to_nat n)%nat ->
       nth i bits_Rx 0%Z
       = decision (energia senal_Rx portadora_16QAM mpp i)) /\
    (forall i, (Z.to_nat n <= i)%nat -> nth i bits_Rx 0%Z = 0%Z).
Proof.
  intros HG Hmpp Hc Hn. unfold demodulador_16QAM, buscar.
  rewrite int_div_ok, HG by assumption. cbn [bind].
  set (K := (length senal_Rx / mpp)%nat) in *.
  assert (HK : (K * mpp <= length senal_Rx)%nat)
    by (unfold K; rewrite Nat.mul_comm; now apply Nat.Div0.mul_div_le).
  destruct (demodulador_bucle_general senal_Rx portadora_16QAM mpp Hc
              (Z.to_nat n) 0 (repeat 0%Z (K * 4))
              (Np.zeros (length senal_Rx)))
    as (b' & d' & E & Lb & _ & Hout & Hin & _).
  - simpl. nia.
  - apply zeros_length.
  - rewrite repeat_length. simpl. lia.
  - exists b', d'. split; [exact E|]. rewrite repeat_length in Lb.
    split; [exact Lb|]. split.
    + intros i Hi. apply Hin. lia.
    + intros i Hi. rewrite Hout by (simpl; lia). apply nth_repeat.
Qed.

Lemma demodulador_16QAM_con_N_testigo :
  exists bits_Rx senal_demodulada,
    demodulador_16QAM (ligar globales_P4 "N" (VEntero 2))
      [0; 1; 0; -1] [0; 1] 2
      = Return (bits_Rx, senal_demodulada) /\
    length bits_Rx = (4 / 2 * 4)%nat /\
    (forall i, (i < Z.to_nat 2)%nat ->
       nth i bits_Rx 0%Z = decision (energia [0; 1; 0; -1] [0; 1] 2 i)) /\
    (forall i, (Z.to_nat 2 <= i)%nat -> nth i bits_Rx 0%Z = 0%Z).
Proof.
  apply (demodulador_16QAM_con_N (ligar globales_P4 "N" (VEntero 2)) 2
           [0; 1; 0; -1] [0; 1] 2).
  - reflexivity.
  - discriminate.
  - reflexivity.
  - simpl. lia.
Defined.

End QAMTeoremas.

(** ** The whole BPSK link *)

Section Enlace.

(** X23: an image of shape (x, y, z) with at least one 8-bit value,
    turned into bits, modulated with [fc > 0] and [mpp >= 4], passed
    through the channel without noise, demodulated with the carrier the
    modulator returned and decoded with the image's shape, is
    reconstructed exactly. *)
Theorem imagen_ida_y_vuelta (a : ndarray) (x y z : nat) (fc : R)
  (mpp : nat) (SNR : R) (g : Np.rng) :
  forma a = [x; y; z] -> bien_formado a ->
  Forall (fun p => (p < 256)%N) (datos a) -> datos a <> [] ->
  0 < fc -> (4 <= mpp)%nat -> sin_ruido g ->
  exists bits senal_Tx P portadora moduladora bits_Rx senal_demodulada,
    rgb_a_bit a = Return bits /\
    modulador bits fc mpp = Return (senal_Tx, P, portadora, moduladora) /\
    demodulador (fst (canal_ruidoso senal_Tx P SNR g)) portadora mpp
      = Return (bits_Rx, senal_demodulada) /\
    bits_a_rgb bits_Rx (forma a) = Return a.
Proof.
  destruct a as [dims ps]. unfold bien_formado. cbn [forma datos].
  intros -> Hl Hps Hne Hfc Hmpp Hg.
  unfold producto_forma in Hl. cbn [fold_right] in Hl.
  set (bits := concat (map bits_de_pixel ps)).
  assert (Hbits : Forall es_bit bits).
  { apply Forall_concat, Forall_forall. intros b Hb.
    apply in_map_iff in Hb. destruct Hb as (p & <- & _).
    apply bits_de_pixel_bits. }
  assert (Hbne : bits <> []).
  { unfold bits. destruct ps as [|p ps]; [congruence|]. discriminate. }
  destruct (modulador_ok bits fc mpp Hbne) as (P & m & E); [lra|].
  set (c := periodo_sen fc (Np.linspace 0 (1 / fc) mpp)) in *.
  assert (Hc : length c = mpp)
    by (unfold c; now rewrite periodo_sen_length, linspace_length).
  destruct (demodulador_bloques c mpp Hc bits) as (dem & D);
    [lia | apply portadora_energia_positiva; [lra | lia] | exact Hbits |].
  exists bits, (concat (map (bloque_BPSK c) bits)), P, c, m, bits, dem.
  split; [apply rgb_a_bit_valor; [lia | exact Hps]|].
  split; [exact E|].
  rewrite canal_sin_ruido by assumption. split; [exact D|].
  apply bits_a_rgb_valor; trivial.
Qed.

Lemma imagen_ida_y_vuelta_testigo :
  exists bits senal_Tx P portadora moduladora bits_Rx senal_demodulada,
    rgb_a_bit {| forma := [1; 1; 2]%nat; datos := [5; 255]%N |}
      = Return bits /\
    modulador bits 5000 20 = Return (senal_Tx, P, portadora, moduladora) /\
    demodulador (fst (canal_ruidoso senal_Tx P 40 generador_nulo))
      portadora 20 = Return (bits_Rx, senal_demodulada) /\
    bits_a_rgb bits_Rx [1; 1; 2]%nat
      = Return {| forma := [1; 1; 2]%nat; datos := [5; 255]%N |}.
Proof.
  apply (imagen_ida_y_vuelta
           {| forma := [1; 1; 2]%nat; datos := [5; 255]%N |} 1 1 2
           5000 20 40 generador_nulo).
  - reflexivity.
  - reflexivity.
  - repeat constructor.
  - discriminate.
  - lra.
  - lia.
  - intros n. reflexivity.
Defined.

End Enlace.
